(** * The per-sample audio dispatch of min-api (c74_min_operator_sample.h)

    A shallow embedding of [sample_operator], [callable_samples],
    [perform_copy_output] and the two [min_performer::perform]
    specialisations, over a flat sample memory, together with the
    properties of the dispatch layer. *)

From stdpp Require Import base numbers option list gmap.

Local Open Scope Z_scope.

(** ** Integer types

    [int] is 32 bits wide on every platform the header is built for.  The
    width of [size_t] is left open ([size_bits]), it differs between the
    32 and 64 bit builds. *)

Definition INT_MIN : Z := - 2 ^ 31.
Definition INT_MAX : Z := 2 ^ 31 - 1.

Definition is_int (z : Z) : Prop := INT_MIN ≤ z ≤ INT_MAX.

(** Conversion of an [int] to [size_t]: reduction modulo [2 ^ size_bits]. *)
Definition to_size_t (size_bits : Z) (z : Z) : Z := z `mod` 2 ^ size_bits.

(** ** [sample_operator<input_count, output_count>]

    The two template arguments are [int]s; the class stores them in two
    [static constexpr size_t] members and returns those. *)

Record sample_operator := SampleOperator {
  input_count : Z;
  output_count : Z
}.

Definition m_inputcount (size_bits : Z) (d : sample_operator) : Z :=
  to_size_t size_bits (input_count d).
Definition m_outputcount (size_bits : Z) (d : sample_operator) : Z :=
  to_size_t size_bits (output_count d).

Definition inputcount (size_bits : Z) (d : sample_operator) : Z :=
  m_inputcount size_bits d.
Definition outputcount (size_bits : Z) (d : sample_operator) : Z :=
  m_outputcount size_bits d.

(** ** [detail::gen_seq]

    [gen_seq<N, Is...>] derives from [gen_seq<N-1, N-1, Is...>] and
    [gen_seq<0, Is...>] from [seq<Is...>]. *)
Fixpoint gen_seq (N : nat) (Is : list nat) : list nat :=
  match N with
  | O => Is
  | S N' => gen_seq N' (N' :: Is)
  end.

Section dispatch.
Context {sample St : Type}.
Context (size_bits : Z).

(** ** Samples, compute units and the machine state

    The dispatch layer only copies samples, so the sample type ([double]
    in the header) is a parameter.  [calculate] is the member function of
    the user's class: it receives one sample per input channel and returns
    either one bare sample or an array of samples; it may update the
    object it is called on, whose state has type [St]. *)

Inductive calc_result : Type :=
  | RSample (val : sample)
  | RSamples (vals : list sample).

Inductive event : Type :=
  | EvLoad (a : Z) (v : sample)
  | EvStore (a : Z) (v : sample)
  | EvCall (args : list sample) (r : calc_result).

Record min_class := MinClass {
  base : sample_operator;
  calculate : St → list sample → calc_result * St
}.

(** [mem] maps the address of every allocated sample cell (addresses count
    samples, not bytes) to its contents, [obj] is [self->obj], [trace]
    records every sample load, sample store and [calculate] call in the
    order in which they happen. *)
Record machine := Machine {
  mem : gmap Z sample;
  obj : St;
  trace : list event
}.

(** A computation either has no defined behaviour ([None]) or returns a
    value and the next machine state. *)
Definition M (A : Type) : Type := machine → option (A * machine).

#[global] Instance M_ret : MRet M := λ A x s, Some (x, s).
#[global] Instance M_bind : MBind M := λ A B f m s,
  match m s with
  | Some (x, s') => f x s'
  | None => None
  end.

Definition undefined {A} : M A := λ _, None.
Definition lift {A} (o : option A) : M A := λ s, x ← o; Some (x, s).

Definition log (e : event) (s : machine) : machine :=
  Machine (mem s) (obj s) (trace s ++ [e]).

(** Reading and writing the sample at the address [a]: both are
    undefined on a cell that is not allocated. *)
Definition read (a : Z) : M sample := λ s,
  v ← mem s !! a;
  Some (v, log (EvLoad a v) s).

Definition write (a : Z) (v : sample) : M unit := λ s,
  _ ← mem s !! a;
  Some ((), log (EvStore a v) (Machine (<[a := v]> (mem s)) (obj s) (trace s))).

(** [p[i]] as an rvalue and [p[i] = v], for a sample pointer [p]. *)
Definition load (p i : Z) : M sample := read (p + i).
Definition store (p i : Z) (v : sample) : M unit := write (p + i) v.

(** [chans[c]] for one of the two pointer tables [in_chans] and
    [out_chans]; the tables are passed by value. *)
Definition chan_ptr (chans : list Z) (c : Z) : M Z :=
  lift (if decide (0 ≤ c) then chans !! Z.to_nat c else None).

(** [self->obj.calculate(args...)] *)
Definition call_calculate (T : min_class) (args : list sample) : M calc_result :=
  λ s, let '(r, o) := calculate T (obj s) args in
       Some (r, log (EvCall args r) (Machine (mem s) o (trace s))).

(** [for (auto i = 0; i < bound; ++i) body]: the counter is an [int]
    that only the loop header changes, so the body runs for
    [i = 0, 1, ...] as long as [i < bound]; [++i] at [INT_MAX] is
    undefined.  [a] is the local state the body updates. *)
Definition incr_int (i : Z) : M Z :=
  if decide (i < INT_MAX) then mret (i + 1) else undefined.

Fixpoint for_from {A} (n : nat) (i : Z) (body : Z → A → M A) (a : A) : M A :=
  match n with
  | O => mret a
  | S n' => a' ← body i a; i' ← incr_int i; for_from n' i' body a'
  end.

Definition for_int {A} (bound : Z) (body : Z → A → M A) (a : A) : M A :=
  for_from (Z.to_nat bound) 0 body a.

(** *** The 1x1 [min_performer]

    [calculate] has to return something that converts to [double]; an
    array does not. *)
Definition perform_1x1 (T : min_class) (in_chans out_chans : list Z)
    (sampleframes : Z) : M unit :=
  in_samps ← chan_ptr in_chans 0;
  out_samps ← chan_ptr out_chans 0;
  for_int sampleframes (λ i _,
    in_ ← load in_samps i;
    out ← call_calculate T [in_];
    match out with
    | RSample out => store out_samps i out
    | RSamples _ => undefined
    end) ().

(** *** [callable_samples<T, count>]

    [data] is a [std::array] that the constructor leaves uninitialised:
    a slot is [None] until [set] has written it.  The member [self] is
    the machine's object. *)
Record callable_samples := CallableSamples {
  data : list (option sample)
}.

Definition new_callable_samples (count : Z) : callable_samples :=
  CallableSamples (replicate (Z.to_nat count) None).

(** [set(size_t index, sample& value)] does [data[index] = value]: the
    reference [value] is the address of the referenced sample, which the
    assignment reads. *)
Definition set (index : Z) (value : Z) (ins : callable_samples)
    : M callable_samples :=
  v ← read value;
  if decide (0 ≤ index < Z.of_nat (length (data ins)))
  then mret (CallableSamples (<[Z.to_nat index := Some v]> (data ins)))
  else undefined.

(** [calculate(data[Is]...)] with [Is...] generated by [gen_seq<count>]. *)
Definition call (T : min_class) (count : Z) (ins : callable_samples) : M calc_result :=
  args ← lift (mapM (λ i, mjoin (data ins !! i)) (gen_seq (Z.to_nat count) []));
  call_calculate T args.

(** *** [perform_copy_output], both overloads *)
Definition perform_copy_output_samples (T : min_class) (index : Z)
    (out_chans : list Z) (vals : list sample) : M unit :=
  for_int (outputcount size_bits (base T)) (λ chan _,
    p ← chan_ptr out_chans chan;
    v ← lift (vals !! Z.to_nat chan);
    store p index v) ().

Definition perform_copy_output_sample (index : Z) (out_chans : list Z)
    (val : sample) : M unit :=
  p ← chan_ptr out_chans 0;
  store p index val.

(** Overload resolution picks the [sample] overload exactly when the
    value returned from [calculate] is a bare sample. *)
Definition perform_copy_output (T : min_class) (index : Z)
    (out_chans : list Z) (out : calc_result) : M unit :=
  match out with
  | RSample val => perform_copy_output_sample index out_chans val
  | RSamples vals => perform_copy_output_samples T index out_chans vals
  end.

(** *** The generic [min_performer] *)
Definition perform_generic (T : min_class) (in_chans out_chans : list Z)
    (sampleframes : Z) : M unit :=
  for_int sampleframes (λ i _,
    let count := inputcount size_bits (base T) in
    ins ← for_int (inputcount size_bits (base T)) (λ chan ins,
             p ← chan_ptr in_chans chan;
             set chan (p + i) ins) (new_callable_samples count);
    out ← call T count ins;
    perform_copy_output T i out_chans out) ().

(** *** Selection of the specialisation

    [std::is_base_of<sample_operator<1,1>, T>] holds exactly for the
    classes whose template arguments are [1] and [1]. *)
Definition is_1x1 (d : sample_operator) : bool :=
  bool_decide (input_count d = 1 ∧ output_count d = 1).

Definition perform (T : min_class) (in_chans out_chans : list Z)
    (sampleframes : Z) : M unit :=
  if is_1x1 (base T)
  then perform_1x1 T in_chans out_chans sampleframes
  else perform_generic T in_chans out_chans sampleframes.

End dispatch.

Arguments calc_result : clear implicits.
Arguments event : clear implicits.
Arguments min_class : clear implicits.
Arguments machine : clear implicits.
Arguments callable_samples : clear implicits.

(** ** Reading a block

    [channel_sample m chans c i] is [chans[c][i]] in the memory [m]. *)
Definition channel_sample {sample} (m : gmap Z sample) (chans : list Z)
    (c : nat) (i : Z) : option sample :=
  p ← chans !! c; m !! (p + i).

(** Every cell of the first [F] frames of every buffer in [chans] is
    allocated. *)
Definition allocated {sample} (m : gmap Z sample) (chans : list Z) (F : Z) : Prop :=
  Forall (λ p, Forall (λ i, is_Some (m !! (p + i))) (seqZ 0 F)) chans.

(** No output buffer starts strictly inside an input buffer: an output
    buffer is the same array as the input buffer, or ends before its
    start, or starts after its end.  Then no store of frame [i] reaches a
    cell that a later frame loads. *)
Definition no_clobber (ins outs : list Z) (F : Z) : Prop :=
  Forall (λ p, Forall (λ q, q ≤ p ∨ p + F ≤ q) outs) ins.

(** The buffers in [chans] are pairwise disjoint. *)
Fixpoint disjoint_channels (chans : list Z) (F : Z) : Prop :=
  match chans with
  | [] => True
  | q :: chans' =>
      Forall (λ q', q + F ≤ q' ∨ q' + F ≤ q) chans' ∧ disjoint_channels chans' F
  end.

(** No buffer of [ins] shares a cell with a buffer of [outs]. *)
Definition separate (ins outs : list Z) (F : Z) : Prop :=
  Forall (λ p, Forall (λ q, q + F ≤ p ∨ p + F ≤ q) outs) ins.

(** ** What one frame does, as a function of the state before it *)
Section frame.
Context {sample St : Type}.

Definition result_vals (r : calc_result sample) : list sample :=
  match r with
  | RSample val => [val]
  | RSamples vals => vals
  end.

Definition result_chans (M : nat) (r : calc_result sample) : nat :=
  match r with
  | RSample _ => 1%nat
  | RSamples _ => M
  end.

Definition gather (m : gmap Z sample) (ins : list Z) (i : Z) : option (list sample) :=
  mapM (λ p, m !! (p + i)) ins.

Definition scatter (outs : list Z) (i : Z) (vals : list sample)
    (m : gmap Z sample) : gmap Z sample :=
  foldl (λ m qv, <[qv.1 + i := qv.2]> m) m (zip outs vals).

Definition frame_trace (ins outs : list Z) (i : Z) (args : list sample)
    (r : calc_result sample) : list (event sample) :=
  zip_with (λ p v, EvLoad (p + i) v) ins args
  ++ [EvCall args r]
  ++ zip_with (λ q v, EvStore (q + i) v) outs (result_vals r).

Definition frame_post (T : min_class sample St)
    (ins out_chans : list Z) (M : nat) (i : Z)
    (args : list sample) (s : machine sample St) : machine sample St :=
  let '(r, o) := calculate T (obj s) args in
  let outs := take (result_chans M r) out_chans in
  Machine (scatter outs i (result_vals r) (mem s)) o
          (trace s ++ frame_trace ins outs i args r).

(** [frames T ins out_chans M i calls s s']: starting in [s], the frames
    [i], [i+1], ... take the machine to [s']; [calls] lists, frame by
    frame, the arguments and the result of the one [calculate] call. *)
Fixpoint frames (T : min_class sample St) (ins out_chans : list Z) (M : nat) (i : Z)
    (calls : list (list sample * calc_result sample)) (s s' : machine sample St) : Prop :=
  match calls with
  | [] => s' = s
  | (args, r) :: calls' =>
      gather (mem s) ins i = Some args
      ∧ (calculate T (obj s) args).1 = r
      ∧ frames T ins out_chans M (i + 1) calls'
               (frame_post T ins out_chans M i args s) s'
  end.

(** Called with one argument, the class returns a bare sample. *)
Definition returns_sample (T : min_class sample St) : Prop :=
  ∀ o x, ∃ val, (calculate T o [x]).1 = RSample val.

End frame.

(** The trace of the frames [i], [i+1], ... whose calls are [calls], and
    the object they leave behind. *)
Definition calls_trace {sample} (ins out_chans : list Z) (M : nat) (i : Z)
    (calls : list (list sample * calc_result sample)) : list (event sample) :=
  concat (imap (λ n ar, frame_trace ins (take (result_chans M ar.2) out_chans)
                          (i + Z.of_nat n) ar.1 ar.2) calls).

Fixpoint calls_obj {sample St} (T : min_class sample St) (o : St)
    (calls : list (list sample * calc_result sample)) : St :=
  match calls with
  | [] => o
  | (args, _) :: calls' => calls_obj T (calculate T o args).2 calls'
  end.

(** Every call in [calls] returned what [calculate] returns on the object
    the previous calls left behind. *)
Fixpoint calls_chain {sample St} (T : min_class sample St) (o : St)
    (calls : list (list sample * calc_result sample)) : Prop :=
  match calls with
  | [] => True
  | (args, r) :: calls' =>
      (calculate T o args).1 = r ∧ calls_chain T (calculate T o args).2 calls'
  end.

(** Whatever [calculate] returns for [K] arguments can be scattered: it
    names no more channels than the table of output pointers has entries,
    and carries a sample for each of them. *)
Definition well_shaped {sample St} (T : min_class sample St) (K M n_out : nat) : Prop :=
  ∀ o args, length args = K →
    (result_chans M (calculate T o args).1 ≤ n_out)%nat
    ∧ (result_chans M (calculate T o args).1
       ≤ length (result_vals (calculate T o args).1))%nat.

(** The class keeps to its descriptor: called with [K] arguments,
    [calculate] returns an array of [M] samples, or a bare sample when
    [M] is [1]; a class that derives from [sample_operator<1,1>] has to
    return the bare sample. *)
Definition conforming {sample St} (T : min_class sample St) (K M : nat) : Prop :=
  ∀ o args, length args = K →
    match (calculate T o args).1 with
    | RSample _ => M = 1%nat
    | RSamples vals => length vals = M ∧ ¬ (K = 1%nat ∧ M = 1%nat)
    end.

(** The trace of a whole call whose frames [0], [1], ... made the calls
    [calls]: frame after frame, and in each frame the loads in the order
    of the input table, the call, the stores in the order of the output
    table. *)
Definition block_trace {sample} (in_chans out_chans : list Z)
    (calls : list (list sample * calc_result sample)) : list (event sample) :=
  concat (imap (λ n ar, frame_trace in_chans out_chans (Z.of_nat n) ar.1 ar.2) calls).

(** The [calculate] calls a trace records, in order. *)
Definition calls_in {sample} (tr : list (event sample))
    : list (list sample * calc_result sample) :=
  omap (λ e, match e with EvCall args r => Some (args, r) | _ => None end) tr.

(** Sample [c], [i] of the table [chans] after a call that returned [r]. *)
Definition sample_after {sample St} (r : option (() * machine sample St))
    (chans : list Z) (c : nat) (i : Z) : option sample :=
  '(_, s') ← r; channel_sample (mem s') chans c i.

(** The body of the frame loop of the generic performer, named. *)
Definition generic_frame {sample St} (size_bits : Z) (T : min_class sample St)
    (in_chans out_chans : list Z) (i : Z) : M (sample:=sample) (St:=St) unit :=
  let count := inputcount size_bits (base T) in
  ins ← for_int (inputcount size_bits (base T)) (λ chan ins,
           p ← chan_ptr in_chans chan;
           set chan (p + i) ins) (new_callable_samples count);
  out ← call T count ins;
  perform_copy_output size_bits T i out_chans out.

(** ** Blocks that follow one another, and what a call may touch *)

(** The pointer tables of the block that follows a block of [F] frames. *)
Definition advance (F : Z) (chans : list Z) : list Z := (λ p, p + F) <$> chans.

(** [a] is one of the first [F] cells of a buffer of the table [chans]. *)
Definition block_cell (chans : list Z) (F : Z) (a : Z) : Prop :=
  ∃ p i, p ∈ chans ∧ 0 ≤ i < F ∧ a = p + i.

(** From [s] to [s'] no cell was allocated or freed, only cells in [S]
    changed, and what was added to the trace loads from [L] and stores
    to [S] only. *)
Definition touches {sample St} (L S : Z → Prop) (s s' : machine sample St) : Prop :=
  (∀ a, is_Some (mem s' !! a) ↔ is_Some (mem s !! a))
  ∧ (∀ a, ¬ S a → mem s' !! a = mem s !! a)
  ∧ ∃ tr, trace s' = trace s ++ tr
          ∧ Forall (λ e, match e with
                         | EvLoad a _ => L a
                         | EvStore a _ => S a
                         | EvCall _ _ => True
                         end) tr.

(** Whenever [c] returns, it returns a value in [R] and has touched no
    more than [L] and [S]. *)
Definition bounded {sample St A} (L S : Z → Prop) (R : A → Prop)
    (c : M (sample:=sample) (St:=St) A) : Prop :=
  ∀ s x s', c s = Some (x, s') → R x ∧ touches L S s s'.

(** Called with [K] arguments, [calculate] computes [g] of them and
    leaves the object as it is. *)
Definition pure_class {sample St} (T : min_class sample St) (K : nat)
    (g : list sample → calc_result sample) : Prop :=
  ∀ o args, length args = K → calculate T o args = (g args, o).

(** Called with [K] arguments, [calculate] returns a bare sample. *)
Definition sample_valued {sample St} (T : min_class sample St) (K : nat) : Prop :=
  ∀ o args, length args = K → ∃ val, (calculate T o args).1 = RSample val.

(** ** Example classes and blocks (samples are integers) *)

Definition buffer (p : Z) (l : list Z) : gmap Z Z :=
  list_to_map (imap (λ i v, (p + Z.of_nat i, v)) l).

(** [sample_operator<1,1>], [calculate(x) = 2 * x]. *)
Definition doubler : min_class Z () :=
  MinClass (SampleOperator 1 1)
    (λ o args, (RSample (2 * default 0 (args !! 0%nat)), o)).

(** [sample_operator<2,1>], [calculate(a, b) = a - 2 * b]. *)
Definition weighted_difference : min_class Z () :=
  MinClass (SampleOperator 2 1)
    (λ o args, (RSample (default 0 (args !! 0%nat) - 2 * default 0 (args !! 1%nat)), o)).

(** [sample_operator<2,1>], [calculate(a, b) = a + b]. *)
Definition adder : min_class Z () :=
  MinClass (SampleOperator 2 1)
    (λ o args, (RSample (default 0 (args !! 0%nat) + default 0 (args !! 1%nat)), o)).

(** [sample_operator<2,2>], [calculate(a, b) = {a + b, a - b}]. *)
Definition sum_and_difference : min_class Z () :=
  MinClass (SampleOperator 2 2)
    (λ o args, (RSamples [default 0 (args !! 0%nat) + default 0 (args !! 1%nat);
                          default 0 (args !! 0%nat) - default 0 (args !! 1%nat)], o)).

(** [sample_operator<1,1>] with a member: [calculate(x)] adds [x] to the
    running total and returns the total. *)
Definition accumulator : min_class Z Z :=
  MinClass (SampleOperator 1 1)
    (λ o args, (RSample (o + default 0 (args !! 0%nat)), o + default 0 (args !! 0%nat))).

(** [sample_operator<1,2>], [calculate(x) = {x, -x}]. *)
Definition splitter : min_class Z () :=
  MinClass (SampleOperator 1 2)
    (λ o args, (RSamples [default 0 (args !! 0%nat); - default 0 (args !! 0%nat)], o)).

(** [sample_operator<2,2>] with a member: [calculate(a, b)] adds [a + b]
    to the running total and returns the total, as a bare sample. *)
Definition running_mix : min_class Z Z :=
  MinClass (SampleOperator 2 2)
    (λ o args, (RSample (o + default 0 (args !! 0%nat) + default 0 (args !! 1%nat)),
                o + default 0 (args !! 0%nat) + default 0 (args !! 1%nat))).

(** Two input buffers at 100 and 200, two output buffers at 300 and 400,
    three frames each. *)
Definition block_mem : gmap Z Z :=
  buffer 100 [1; 2; 3] ∪ buffer 200 [10; 20; 30]
  ∪ buffer 300 [0; 0; 0] ∪ buffer 400 [0; 0; 0].

Definition block {St} (o : St) : machine Z St := Machine block_mem o [].

(** Goals about the cells of a concrete block, and about concrete
    [int]s. *)
Ltac solve_cells :=
  repeat first [apply Forall_nil_2 | apply Forall_cons_2];
  first [lia | vm_compute; eauto].

Ltac solve_int := unfold is_int, INT_MIN, INT_MAX; simpl; lia.

(** * Properties *)

(** ** The index sequence *)

Lemma gen_seq_app (N : nat) (Is : list nat) : gen_seq N Is = seq 0 N ++ Is.
Proof.
  revert Is. induction N as [|N IH]; intros Is; [done|].
  simpl gen_seq. rewrite IH, seq_S. by rewrite <- app_assoc.
Qed.

Lemma gen_seq_seq (N : nat) : gen_seq N [] = seq 0 N.
Proof. by rewrite gen_seq_app, app_nil_r. Qed.

(** ** Rules for the computations *)
Section rules.
Context {sample St : Type}.
Implicit Types (s : machine sample St) (m : gmap Z sample).

Lemma bind_Some {A B} (c : M A) (f : A → M B) s x s' :
  c s = Some (x, s') → (c ≫= f) s = f x s'.
Proof. intros H. unfold mbind, M_bind. by rewrite H. Qed.

Lemma bind_None {A B} (c : M A) (f : A → M B) s :
  c s = None → (c ≫= f) s = None.
Proof. intros H. unfold mbind, M_bind. by rewrite H. Qed.

Lemma load_Some p i s v :
  mem s !! (p + i) = Some v → load p i s = Some (v, log (EvLoad (p + i) v) s).
Proof. intros H. unfold load, read. by rewrite H. Qed.

Lemma store_Some p i v s :
  is_Some (mem s !! (p + i)) →
  store p i v s
  = Some ((), Machine (<[p + i := v]> (mem s)) (obj s) (trace s ++ [EvStore (p + i) v])).
Proof. intros [w H]. unfold store, write. by rewrite H. Qed.

Lemma chan_ptr_Some (chans : list Z) (c : nat) p s :
  chans !! c = Some p → chan_ptr chans (Z.of_nat c) s = Some (p, s).
Proof.
  intros H. unfold chan_ptr, lift. rewrite decide_True by lia.
  by rewrite Nat2Z.id, H.
Qed.

Lemma incr_int_Some i s : i < INT_MAX → incr_int i s = Some (i + 1, s).
Proof. intros H. unfold incr_int. by rewrite decide_True. Qed.

(** The loop rule: an invariant [P i a s] that holds on entry and that
    every iteration re-establishes for [i + 1] holds on exit, and the
    loop does return. *)
Lemma for_from_inv {A} (P : Z → A → machine sample St → Prop) (n : nat) (i0 : Z)
    (body : Z → A → M A) (a : A) s :
  i0 + Z.of_nat n ≤ INT_MAX →
  P i0 a s →
  (∀ i a s, i0 ≤ i < i0 + Z.of_nat n → P i a s →
     ∃ a' s', body i a s = Some (a', s') ∧ P (i + 1) a' s') →
  ∃ a' s', for_from n i0 body a s = Some (a', s') ∧ P (i0 + Z.of_nat n) a' s'.
Proof.
  revert i0 a s. induction n as [|n IH]; intros i0 a s Hmax HP Hbody.
  - exists a, s. split; [done|]. by replace (i0 + Z.of_nat 0) with i0 by lia.
  - destruct (Hbody i0 a s) as (a1 & s1 & Hrun & HP1); [lia|done|].
    destruct (IH (i0 + 1) a1 s1) as (a2 & s2 & Hrest & HP2); [lia|done| |].
    { intros i a' s' Hi. apply Hbody. lia. }
    exists a2, s2. split.
    + simpl for_from. rewrite (bind_Some _ _ _ _ _ Hrun).
      rewrite (bind_Some _ _ _ _ _ (incr_int_Some i0 s1 ltac:(lia))). done.
    + by replace (i0 + Z.of_nat (S n)) with (i0 + 1 + Z.of_nat n) by lia.
Qed.

Lemma for_int_inv {A} (P : Z → A → machine sample St → Prop) (bound : Z)
    (body : Z → A → M A) (a : A) s :
  0 ≤ bound ≤ INT_MAX →
  P 0 a s →
  (∀ i a s, 0 ≤ i < bound → P i a s →
     ∃ a' s', body i a s = Some (a', s') ∧ P (i + 1) a' s') →
  ∃ a' s', for_int bound body a s = Some (a', s') ∧ P bound a' s'.
Proof.
  intros Hb HP Hbody. unfold for_int.
  destruct (for_from_inv P (Z.to_nat bound) 0 body a s) as (a' & s' & H1 & H2);
    [lia|done| |].
  { intros i a' s' Hi. apply Hbody. lia. }
  exists a', s'. split; [done|]. by replace bound with (0 + Z.of_nat (Z.to_nat bound)) by lia.
Qed.

(** A loop whose bound is not positive does nothing. *)
Lemma for_int_nonpos {A} (bound : Z) (body : Z → A → M A) (a : A) s :
  bound ≤ 0 → for_int bound body a s = Some (a, s).
Proof. intros H. unfold for_int. by replace (Z.to_nat bound) with O by lia. Qed.

End rules.

(** ** The loops of one frame *)
Section frame_rules.
Context {sample St : Type} (size_bits : Z).
Implicit Types (s : machine sample St) (m : gmap Z sample) (T : min_class sample St).

Lemma zip_with_take_S {A B C} (f : A → B → C) (l : list A) (k : list B) (n : nat) x y :
  l !! n = Some x → k !! n = Some y →
  zip_with f (take (S n) l) (take (S n) k)
  = zip_with f (take n l) (take n k) ++ [f x y].
Proof.
  intros Hl Hk. rewrite (take_S_r l n x Hl), (take_S_r k n y Hk).
  rewrite zip_with_app; [done|].
  rewrite !length_take. apply lookup_lt_Some in Hl, Hk. lia.
Qed.

Lemma gather_lookup m (ins : list Z) i args (c : nat) p :
  gather m ins i = Some args → ins !! c = Some p →
  ∃ v, args !! c = Some v ∧ m !! (p + i) = Some v.
Proof.
  unfold gather. rewrite mapM_Some. intros H Hp.
  destruct (Forall2_lookup_l _ _ _ _ _ H Hp) as (v & Hv & Hm). eauto.
Qed.

Lemma gather_length m (ins : list Z) i args :
  gather m ins i = Some args → length args = length ins.
Proof. unfold gather. rewrite mapM_Some. intros H. symmetry. by eapply Forall2_length. Qed.

Lemma gather_loop (in_chans : list Z) (K : Z) i s args :
  0 ≤ K ≤ INT_MAX → (Z.to_nat K ≤ length in_chans)%nat →
  gather (mem s) (take (Z.to_nat K) in_chans) i = Some args →
  for_int K (λ chan ins, p ← chan_ptr in_chans chan; set chan (p + i) ins)
          (new_callable_samples K) s
  = Some (CallableSamples (Some <$> args),
          Machine (mem s) (obj s)
            (trace s ++ zip_with (λ p v, EvLoad (p + i) v) (take (Z.to_nat K) in_chans) args)).
Proof.
  intros HK Hlen Hg.
  pose proof (gather_length _ _ _ _ Hg) as Hla. rewrite length_take in Hla.
  set (ins := take (Z.to_nat K) in_chans) in *.
  set (P := λ (c : Z) (b : callable_samples sample) (s' : machine sample St),
     data b = (Some <$> take (Z.to_nat c) args) ++ replicate (Z.to_nat (K - c)) None
     ∧ s' = Machine (mem s) (obj s)
              (trace s ++ zip_with (λ p v, EvLoad (p + i) v)
                            (take (Z.to_nat c) ins) (take (Z.to_nat c) args))).
  destruct (for_int_inv P K
     (λ chan ins, p ← chan_ptr in_chans chan; set chan (p + i) ins)
     (new_callable_samples K) s HK) as (b & s' & Hrun & Hb & Hs').
  - split.
    + simpl. by rewrite Z.sub_0_r.
    + simpl. rewrite app_nil_r. by destruct s.
  - intros c b s1 Hc [Hb Hs1].
    assert (Hc' : (Z.to_nat c < length ins)%nat) by (unfold ins; rewrite length_take; lia).
    destruct (lookup_lt_is_Some_2 _ _ Hc') as [p Hp].
    destruct (gather_lookup _ _ _ _ _ _ Hg Hp) as (v & Hv & Hm).
    assert (Hp' : in_chans !! Z.to_nat c = Some p).
    { unfold ins in Hp. rewrite lookup_take_lt in Hp by lia. done. }
    eexists _, _. split.
    + rewrite (bind_Some _ _ _ p s1).
      2:{ replace c with (Z.of_nat (Z.to_nat c)) at 1 by lia. by apply chan_ptr_Some. }
      unfold set.
      rewrite (bind_Some _ _ _ v _ (load_Some p i s1 v ltac:(by rewrite Hs1))).
      rewrite decide_True; [done|].
      rewrite Hb, length_app, length_fmap, length_take, length_replicate. lia.
    + split.
      * simpl. rewrite Hb.
        replace (Z.to_nat (c + 1)) with (S (Z.to_nat c)) by lia.
        rewrite (take_S_r _ _ _ Hv), fmap_app. simpl.
        replace (Z.to_nat (K - c)) with (S (Z.to_nat (K - (c + 1)))) by lia.
        simpl. rewrite insert_app_r_alt; rewrite length_fmap, length_take; [|lia].
        replace (Z.to_nat c - Z.to_nat c `min` length args)%nat with O by lia.
        simpl. by rewrite <- app_assoc.
      * rewrite Hs1. unfold log. simpl.
        replace (Z.to_nat (c + 1)) with (S (Z.to_nat c)) by lia.
        rewrite (zip_with_take_S _ _ _ _ _ _ Hp Hv). by rewrite app_assoc.
  - rewrite Hrun. f_equal. f_equal.
    + destruct b as [d]. simpl in Hb. rewrite Hb. f_equal.
      rewrite Z.sub_diag. simpl. rewrite app_nil_r.
      by rewrite take_ge by lia.
    + rewrite Hs'. f_equal. f_equal.
      rewrite (take_ge ins) by (unfold ins; rewrite length_take; lia).
      by rewrite (take_ge args) by lia.
Qed.

Lemma call_full (T : min_class sample St) (K : Z) args s :
  length args = Z.to_nat K →
  call T K (CallableSamples (Some <$> args)) s = call_calculate T args s.
Proof.
  intros Hlen. unfold call.
  erewrite bind_Some; [done|].
  unfold lift. rewrite gen_seq_seq, <- Hlen.
  assert (mapM (λ i : nat, mjoin (data (CallableSamples (Some <$> args)) !! i))
            (seq 0 (length args)) = Some args) as ->; [|done].
  apply mapM_Some, Forall2_same_length_lookup_2; [by rewrite length_seq|].
  intros n x y Hx Hy. apply lookup_seq in Hx as [-> _]. simpl.
  by rewrite list_lookup_fmap, Hy.
Qed.

Lemma scatter_snoc (outs : list Z) i (vals : list sample) m (c : nat) q v :
  outs !! c = Some q → vals !! c = Some v →
  scatter (take (S c) outs) i (take (S c) vals) m
  = <[q + i := v]> (scatter (take c outs) i (take c vals) m).
Proof.
  intros Hq Hv. unfold scatter.
  by rewrite (zip_with_take_S _ _ _ _ _ _ Hq Hv), foldl_app.
Qed.

Lemma scatter_is_Some (outs : list Z) i (vals : list sample) m a :
  is_Some (m !! a) → is_Some (scatter outs i vals m !! a).
Proof.
  unfold scatter. generalize (zip outs vals). intros l. revert m.
  induction l as [|[q v] l IH]; intros m Hm; [done|].
  simpl. apply IH. rewrite lookup_insert_is_Some. destruct (decide (q + i = a)); auto.
Qed.

Lemma scatter_take_vals (outs : list Z) i (vals : list sample) m :
  scatter outs i (take (length outs) vals) m = scatter outs i vals m.
Proof. unfold scatter. by rewrite zip_with_take_r. Qed.

(** *** One frame of the generic performer *)

Lemma scatter_loop T (out_chans : list Z) i (vals : list sample) s :
  let M := outputcount size_bits (base T) in
  0 ≤ M ≤ INT_MAX →
  (Z.to_nat M ≤ length out_chans)%nat → (Z.to_nat M ≤ length vals)%nat →
  Forall (λ q, is_Some (mem s !! (q + i))) (take (Z.to_nat M) out_chans) →
  perform_copy_output_samples size_bits T i out_chans vals s
  = Some ((), Machine (scatter (take (Z.to_nat M) out_chans) i vals (mem s)) (obj s)
                (trace s ++ zip_with (λ q v, EvStore (q + i) v)
                              (take (Z.to_nat M) out_chans) vals)).
Proof.
  intros M HM Hlo Hlv Halloc. unfold perform_copy_output_samples. fold M.
  set (P := λ (c : Z) (_ : ()) (s' : machine sample St),
     s' = Machine (scatter (take (Z.to_nat c) out_chans) i (take (Z.to_nat c) vals) (mem s))
            (obj s)
            (trace s ++ zip_with (λ q v, EvStore (q + i) v)
                          (take (Z.to_nat c) out_chans) (take (Z.to_nat c) vals))).
  destruct (for_int_inv P M
     (λ chan _, p ← chan_ptr out_chans chan; v ← lift (vals !! Z.to_nat chan); store p i v)
     () s HM) as ([] & s' & Hrun & Hs').
  - unfold P. simpl. rewrite app_nil_r. by destruct s.
  - intros c [] s1 Hc Hs1.
    destruct (lookup_lt_is_Some_2 out_chans (Z.to_nat c)) as [q Hq]; [lia|].
    destruct (lookup_lt_is_Some_2 vals (Z.to_nat c)) as [v Hv]; [lia|].
    assert (Hcell : is_Some (mem s1 !! (q + i))).
    { rewrite Hs1. simpl. apply scatter_is_Some.
      rewrite Forall_lookup in Halloc. apply (Halloc (Z.to_nat c)).
      rewrite lookup_take_lt by lia. done. }
    eexists _, _. split.
    + rewrite (bind_Some _ _ _ q s1).
      2:{ replace c with (Z.of_nat (Z.to_nat c)) at 1 by lia. by apply chan_ptr_Some. }
      rewrite (bind_Some _ _ _ v s1) by (unfold lift; by rewrite Hv).
      by apply store_Some.
    + unfold P. rewrite Hs1. simpl.
      replace (Z.to_nat (c + 1)) with (S (Z.to_nat c)) by lia.
      rewrite (scatter_snoc _ _ _ _ _ _ _ Hq Hv).
      rewrite (zip_with_take_S _ _ _ _ _ _ Hq Hv). by rewrite app_assoc.
  - rewrite Hrun, Hs'. f_equal. f_equal. f_equal.
    + rewrite <- (scatter_take_vals (take (Z.to_nat M) out_chans) i vals).
      by rewrite length_take, Nat.min_l by lia.
    + f_equal. rewrite <- (zip_with_take_r _ (take (Z.to_nat M) out_chans) vals).
      by rewrite length_take, Nat.min_l by lia.
Qed.

Lemma generic_frame_post T (in_chans out_chans : list Z) i s args :
  let K := inputcount size_bits (base T) in
  let M := outputcount size_bits (base T) in
  let r := (calculate T (obj s) args).1 in
  let outs := take (result_chans (Z.to_nat M) r) out_chans in
  0 ≤ K ≤ INT_MAX → 0 ≤ M ≤ INT_MAX →
  (Z.to_nat K ≤ length in_chans)%nat →
  gather (mem s) (take (Z.to_nat K) in_chans) i = Some args →
  (result_chans (Z.to_nat M) r ≤ length out_chans)%nat →
  (result_chans (Z.to_nat M) r ≤ length (result_vals r))%nat →
  Forall (λ q, is_Some (mem s !! (q + i))) outs →
  generic_frame size_bits T in_chans out_chans i s
  = Some ((), frame_post T (take (Z.to_nat K) in_chans) out_chans (Z.to_nat M) i args s).
Proof.
  intros K M r outs HK HM Hlen Hg Hlo Hlv Halloc. unfold generic_frame. fold K.
  rewrite (bind_Some _ _ _ _ _ (gather_loop in_chans K i s args HK Hlen Hg)).
  pose proof (gather_length _ _ _ _ Hg) as Hla. rewrite length_take in Hla.
  rewrite (bind_Some _ _ _ r
    (Machine (mem s) (calculate T (obj s) args).2
       (trace s ++ zip_with (λ p v, EvLoad (p + i) v) (take (Z.to_nat K) in_chans) args
        ++ [EvCall args r]))).
  2:{ rewrite call_full by lia. unfold call_calculate, log. simpl. subst r.
      destruct (calculate T (obj s) args) as [r' o]. simpl. by rewrite <- app_assoc. }
  unfold frame_post, frame_trace. subst outs r.
  destruct (calculate T (obj s) args) as [r o]. simpl in *.
  destruct r as [val|vals]; simpl in *.
  - destruct out_chans as [|q out_chans]; [simpl in Hlo; lia|].
    unfold perform_copy_output_sample.
    rewrite (bind_Some _ _ _ q _ (chan_ptr_Some (q :: out_chans) 0 q _ eq_refl)).
    rewrite store_Some; simpl.
    + by rewrite <- !app_assoc.
    + by apply Forall_inv in Halloc.
  - rewrite scatter_loop; simpl; try done. by rewrite <- !app_assoc.
Qed.

Lemma perform_generic_eq T in_chans out_chans sampleframes :
  perform_generic size_bits T in_chans out_chans sampleframes
  = for_int sampleframes (λ i _, generic_frame size_bits T in_chans out_chans i) ().
Proof. done. Qed.

End frame_rules.

(** ** Buffers *)
Lemma allocated_lookup {sample} (m : gmap Z sample) (chans : list Z) F p i :
  allocated m chans F → p ∈ chans → 0 ≤ i < F → is_Some (m !! (p + i)).
Proof.
  unfold allocated. rewrite Forall_forall. intros H Hp Hi.
  specialize (H p Hp). rewrite Forall_forall in H. apply H.
  apply elem_of_seqZ. lia.
Qed.

Lemma no_clobber_ne (ins outs : list Z) F p q i j :
  no_clobber ins outs F → p ∈ ins → q ∈ outs → 0 ≤ i → i < j → j < F →
  p + j ≠ q + i.
Proof.
  unfold no_clobber. rewrite Forall_forall. intros H Hp Hq Hi Hij Hj.
  specialize (H p Hp). rewrite Forall_forall in H. specialize (H q Hq). lia.
Qed.

Lemma separate_ne (ins outs : list Z) F p q i j :
  separate ins outs F → p ∈ ins → q ∈ outs → 0 ≤ i < F → 0 ≤ j < F →
  p + j ≠ q + i.
Proof.
  unfold separate. rewrite Forall_forall. intros H Hp Hq Hi Hj.
  specialize (H p Hp). rewrite Forall_forall in H. specialize (H q Hq). lia.
Qed.

Lemma disjoint_channels_lookup (chans : list Z) F (c c' : nat) q q' :
  disjoint_channels chans F → c ≠ c' →
  chans !! c = Some q → chans !! c' = Some q' →
  q + F ≤ q' ∨ q' + F ≤ q.
Proof.
  revert c c'. induction chans as [|q0 chans IH]; intros c c' Hd Hne Hq Hq'; [done|].
  destruct Hd as [Hhd Htl]. rewrite Forall_forall in Hhd.
  destruct c as [|c], c' as [|c']; simpl in *; simplify_eq.
  - apply Hhd. by eapply list_elem_of_lookup_2.
  - destruct (Hhd q); [by eapply list_elem_of_lookup_2|lia|lia].
  - eapply (IH c c'); eauto.
Qed.

Lemma disjoint_channels_ne (chans : list Z) F (c c' : nat) q q' i j :
  disjoint_channels chans F →
  chans !! c = Some q → chans !! c' = Some q' →
  0 ≤ i < F → 0 ≤ j < F → (c, i) ≠ (c', j) → q + i ≠ q' + j.
Proof.
  intros Hd Hq Hq' Hi Hj Hne. destruct (decide (c = c')) as [->|Hc].
  - simplify_eq. intros ?. apply Hne. f_equal. lia.
  - destruct (disjoint_channels_lookup _ _ _ _ _ _ Hd Hc Hq Hq'); lia.
Qed.

Section frames_lemmas.
Context {sample St : Type}.
Implicit Types (s : machine sample St) (m : gmap Z sample) (T : min_class sample St).

Lemma gather_is_Some m (ins : list Z) i :
  Forall (λ p, is_Some (m !! (p + i))) ins → is_Some (gather m ins i).
Proof. intros H. unfold gather. by apply mapM_is_Some. Qed.

Lemma gather_ext m m' (ins : list Z) i :
  (∀ p, p ∈ ins → m !! (p + i) = m' !! (p + i)) → gather m ins i = gather m' ins i.
Proof.
  intros H. unfold gather. induction ins as [|p ins IH]; [done|].
  simpl. rewrite H by left. rewrite IH; [done|].
  intros p' Hp'. apply H. by right.
Qed.

Lemma scatter_cons (q : Z) outs i (v : sample) vals m :
  scatter (q :: outs) i (v :: vals) m = scatter outs i vals (<[q + i := v]> m).
Proof. done. Qed.

Lemma scatter_lookup_ne (outs : list Z) i (vals : list sample) m a :
  (∀ q, q ∈ outs → a ≠ q + i) → scatter outs i vals m !! a = m !! a.
Proof.
  revert vals m. induction outs as [|q outs IH]; intros vals m H; [done|].
  destruct vals as [|v vals]; [done|].
  rewrite scatter_cons, IH.
  - apply lookup_insert_ne. intros ?. by apply (H q); [left|].
  - intros q' Hq'. apply H. by right.
Qed.

Lemma scatter_lookup_eq (outs : list Z) i (vals : list sample) m (c : nat) q v :
  outs !! c = Some q → vals !! c = Some v →
  (∀ c' q', c ≠ c' → outs !! c' = Some q' → q' ≠ q) →
  scatter outs i vals m !! (q + i) = Some v.
Proof.
  revert c vals m. induction outs as [|q0 outs IH]; intros c vals m Hq Hv Hne; [done|].
  destruct vals as [|v0 vals]; [by destruct c|].
  rewrite scatter_cons. destruct c as [|c]; simpl in *; simplify_eq.
  - rewrite scatter_lookup_ne; [apply lookup_insert_eq|].
    intros q' Hq' ?. apply list_elem_of_lookup in Hq' as [c' Hc'].
    apply (Hne (S c') q'); [done|done|lia].
  - apply (IH c); [done|done|].
    intros c' q' Hc' Hq'. apply (Hne (S c') q'); [congruence|done].
Qed.

Lemma frame_post_mem T ins out_chans M i args s :
  mem (frame_post T ins out_chans M i args s)
  = scatter (take (result_chans M (calculate T (obj s) args).1) out_chans) i
      (result_vals (calculate T (obj s) args).1) (mem s).
Proof. unfold frame_post. by destruct (calculate T (obj s) args). Qed.

Lemma frame_post_obj T ins out_chans M i args s :
  obj (frame_post T ins out_chans M i args s) = (calculate T (obj s) args).2.
Proof. unfold frame_post. by destruct (calculate T (obj s) args). Qed.

Lemma frame_post_trace T ins out_chans M i args s :
  trace (frame_post T ins out_chans M i args s)
  = trace s ++ frame_trace ins (take (result_chans M (calculate T (obj s) args).1) out_chans)
                 i args (calculate T (obj s) args).1.
Proof. unfold frame_post. by destruct (calculate T (obj s) args). Qed.

Lemma frames_snoc T ins out_chans M i calls s s1 args :
  frames T ins out_chans M i calls s s1 →
  gather (mem s1) ins (i + Z.of_nat (length calls)) = Some args →
  frames T ins out_chans M i (calls ++ [(args, (calculate T (obj s1) args).1)]) s
    (frame_post T ins out_chans M (i + Z.of_nat (length calls)) args s1).
Proof.
  revert i s. induction calls as [|[a r] calls IH]; intros i s Hf Hg.
  - simpl in *. subst s1. rewrite Z.add_0_r in *. done.
  - destruct Hf as (Ha & Hr & Hf).
    assert (i + Z.of_nat (length ((a, r) :: calls))
            = i + 1 + Z.of_nat (length calls)) as E by (simpl; lia).
    rewrite E in *. simpl. split; [done|]. split; [done|]. by apply IH.
Qed.

Lemma frames_is_Some T ins out_chans M i calls s s' a :
  frames T ins out_chans M i calls s s' →
  is_Some (mem s !! a) → is_Some (mem s' !! a).
Proof.
  revert i s. induction calls as [|[args r] calls IH]; intros i s Hf Ha.
  - simpl in Hf. by subst.
  - destruct Hf as (_ & _ & Hf). apply (IH _ _ Hf).
    rewrite frame_post_mem. by apply scatter_is_Some.
Qed.

(** Frame property: a cell that is not cell [j] of an output buffer, for
    a frame [j] that was run, keeps its contents. *)
Lemma frames_mem_ne T ins out_chans M i calls s s' a :
  frames T ins out_chans M i calls s s' →
  (∀ q j, q ∈ out_chans → i ≤ j < i + Z.of_nat (length calls) → a ≠ q + j) →
  mem s' !! a = mem s !! a.
Proof.
  revert i s. induction calls as [|[args r] calls IH]; intros i s Hf Ha.
  - simpl in Hf. by subst.
  - destruct Hf as (_ & _ & Hf). rewrite (IH _ _ Hf).
    + rewrite frame_post_mem. apply scatter_lookup_ne.
      intros q Hq. apply Ha; [|simpl; lia]. by eapply subseteq_take.
    + intros q j Hq Hj. apply Ha; [done|simpl; lia].
Qed.

(** Without clobbering, every frame is computed from the samples the
    caller supplied. *)
Lemma frames_args T ins out_chans M F i calls s s' (n : nat) args r :
  frames T ins out_chans M i calls s s' →
  no_clobber ins out_chans F → 0 ≤ i → i + Z.of_nat (length calls) ≤ F →
  calls !! n = Some (args, r) →
  gather (mem s) ins (i + Z.of_nat n) = Some args
  ∧ (∃ o, (calculate T o args).1 = r).
Proof.
  revert i s n. induction calls as [|[a0 r0] calls IH]; intros i s n Hf Hnc Hi HF Hn; [done|].
  destruct Hf as (Ha & Hr & Hf). simpl in HF. destruct n as [|n]; simpl in Hn.
  - simplify_eq. rewrite Z.add_0_r. eauto.
  - destruct (IH _ _ _ Hf Hnc ltac:(lia) ltac:(lia) Hn) as [Hg Ho]. split; [|done].
    rewrite <- Hg. replace (i + Z.of_nat (S n)) with (i + 1 + Z.of_nat n) by lia.
    apply gather_ext. intros p Hp. rewrite frame_post_mem.
    symmetry. apply scatter_lookup_ne. intros q Hq.
    apply (no_clobber_ne ins out_chans F); try done; try lia.
    + by eapply subseteq_take.
    + apply lookup_lt_Some in Hn. lia.
Qed.

(** With pairwise disjoint output buffers, what a frame stored is what
    the buffers hold in the end. *)
Lemma frames_outputs T ins out_chans M F i calls s s' (n c : nat) args r q v :
  frames T ins out_chans M i calls s s' →
  disjoint_channels out_chans F → 0 ≤ i → i + Z.of_nat (length calls) ≤ F →
  calls !! n = Some (args, r) →
  (c < result_chans M r)%nat → out_chans !! c = Some q → result_vals r !! c = Some v →
  mem s' !! (q + (i + Z.of_nat n)) = Some v.
Proof.
  revert i s n. induction calls as [|[a0 r0] calls IH];
    intros i s n Hf Hd Hi HF Hn Hc Hq Hv; [done|].
  destruct Hf as (Ha & Hr & Hf). simpl in HF. destruct n as [|n]; simpl in Hn.
  - simplify_eq. rewrite Z.add_0_r.
    rewrite (frames_mem_ne _ _ _ _ _ _ _ _ _ Hf).
    + rewrite frame_post_mem. apply (scatter_lookup_eq _ _ _ _ c); [|done|].
      * rewrite lookup_take_lt; done.
      * intros c' q' Hc' Hq'. apply lookup_take_Some in Hq' as [Hq' _].
        destruct (disjoint_channels_lookup _ _ _ _ _ _ Hd Hc' Hq Hq'); lia.
    + intros q' j Hq' Hj. apply list_elem_of_lookup in Hq' as [c' Hq'].
      apply (disjoint_channels_ne out_chans F c c'); try done; try lia.
      intros [=]. lia.
  - replace (i + Z.of_nat (S n)) with (i + 1 + Z.of_nat n) by lia.
    apply (IH _ _ _ Hf); try done; lia.
Qed.

End frames_lemmas.

(** ** Whole runs *)
Section runs.
Context {sample St : Type} (size_bits : Z).
Implicit Types (s : machine sample St) (m : gmap Z sample) (T : min_class sample St).

Lemma frames_trace T ins out_chans M i calls s s' :
  frames T ins out_chans M i calls s s' →
  trace s' = trace s ++ calls_trace ins out_chans M i calls.
Proof.
  revert i s. induction calls as [|[args r] calls IH]; intros i s Hf.
  - simpl in Hf. subst. unfold calls_trace. simpl. by rewrite app_nil_r.
  - destruct Hf as (Ha & Hr & Hf). rewrite (IH _ _ Hf), frame_post_trace, Hr.
    unfold calls_trace. simpl. rewrite Z.add_0_r, <- app_assoc. do 3 f_equal.
    apply imap_ext. intros n [a' r'] _. simpl. f_equal. lia.
Qed.

Lemma frames_obj T ins out_chans M i calls s s' :
  frames T ins out_chans M i calls s s' →
  calls_chain T (obj s) calls ∧ obj s' = calls_obj T (obj s) calls.
Proof.
  revert i s. induction calls as [|[args r] calls IH]; intros i s Hf.
  - simpl in Hf. by subst.
  - destruct Hf as (Ha & Hr & Hf). destruct (IH _ _ Hf) as [Hc Ho].
    rewrite frame_post_obj in Hc, Ho. done.
Qed.

Lemma perform_generic_frames T (in_chans out_chans : list Z) F s :
  let K := inputcount size_bits (base T) in
  let M := outputcount size_bits (base T) in
  0 ≤ K ≤ INT_MAX → 0 ≤ M ≤ INT_MAX → 0 ≤ F ≤ INT_MAX →
  (Z.to_nat K ≤ length in_chans)%nat →
  well_shaped T (Z.to_nat K) (Z.to_nat M) (length out_chans) →
  allocated (mem s) (take (Z.to_nat K) in_chans) F →
  allocated (mem s) out_chans F →
  ∃ calls s',
    perform_generic size_bits T in_chans out_chans F s = Some ((), s')
    ∧ length calls = Z.to_nat F
    ∧ frames T (take (Z.to_nat K) in_chans) out_chans (Z.to_nat M) 0 calls s s'.
Proof.
  intros K M HK HM HF Hlen Hshape Hin Hout.
  set (P := λ (n : Z) (_ : ()) (s' : machine sample St),
     ∃ calls, length calls = Z.to_nat n
       ∧ frames T (take (Z.to_nat K) in_chans) out_chans (Z.to_nat M) 0 calls s s').
  destruct (for_int_inv P F
     (λ i _, generic_frame size_bits T in_chans out_chans i) () s HF)
    as ([] & s' & Hrun & calls & Hlc & Hfr).
  - exists []. done.
  - intros i [] s1 Hi (calls & Hlc & Hfr).
    destruct (gather_is_Some (mem s1) (take (Z.to_nat K) in_chans) i) as [args Hg].
    { apply Forall_forall. intros p Hp. apply (frames_is_Some _ _ _ _ _ _ _ _ _ Hfr).
      by apply (allocated_lookup (mem s) (take (Z.to_nat K) in_chans) F). }
    destruct (Hshape (obj s1) args) as [Hs1 Hs2].
    { rewrite (gather_length _ _ _ _ Hg), length_take. lia. }
    eexists (), _. split.
    + apply (generic_frame_post size_bits T in_chans out_chans i s1 args); try done.
      apply Forall_forall. intros q Hq. apply (frames_is_Some _ _ _ _ _ _ _ _ _ Hfr).
      apply (allocated_lookup _ out_chans F); [done| |done]. by eapply subseteq_take.
    + exists (calls ++ [(args, (calculate T (obj s1) args).1)]). split.
      * rewrite length_app. simpl. lia.
      * replace i with (0 + Z.of_nat (length calls)) in * by lia.
        by apply frames_snoc.
  - exists calls, s'. done.
Qed.

Lemma for_from_ext {A} (n : nat) (i : Z)
    (body body' : Z → A → M (sample:=sample) (St:=St) A) a s :
  (∀ i a s, body i a s = body' i a s) →
  for_from n i body a s = for_from n i body' a s.
Proof.
  intros Hb. revert i a s. induction n as [|n IH]; intros i a s; [done|].
  simpl. unfold mbind, M_bind. rewrite Hb.
  destruct (body' i a s) as [[a' s']|]; [|done].
  destruct (incr_int i s') as [[i' s'']|]; [|done]. apply IH.
Qed.

(** For a class with one input that returns a bare sample, the frame of
    the 1x1 performer is the frame of the generic one. *)
Lemma frame_1x1_generic T (in_chans out_chans : list Z) in_samps out_samps i s :
  inputcount size_bits (base T) = 1 → returns_sample T →
  in_chans !! 0%nat = Some in_samps → out_chans !! 0%nat = Some out_samps →
  (in_ ← load in_samps i;
   out ← call_calculate T [in_];
   match out with
   | RSample out => store out_samps i out
   | RSamples _ => undefined
   end) s
  = generic_frame size_bits T in_chans out_chans i s.
Proof.
  intros HK Hret Hin Hout. unfold generic_frame. rewrite HK.
  unfold for_int. change (Z.to_nat 1) with 1%nat. simpl for_from.
  destruct (mem s !! (in_samps + i)) as [v|] eqn:Hv.
  - rewrite (bind_Some _ _ _ v _ (load_Some _ _ _ _ Hv)).
    rewrite (bind_Some _ _ _ (CallableSamples [Some v]) (log (EvLoad (in_samps + i) v) s)).
    2:{ rewrite (bind_Some _ _ _ (CallableSamples [Some v]) (log (EvLoad (in_samps + i) v) s)).
        - by rewrite (bind_Some _ _ _ _ _ (incr_int_Some 0 _ ltac:(done))).
        - rewrite (bind_Some _ _ _ _ _ (chan_ptr_Some in_chans 0 _ _ Hin)).
          unfold set. rewrite (bind_Some _ _ _ v _ (load_Some _ _ _ _ Hv)).
          simpl. done. }
    unfold mbind, M_bind.
    rewrite (call_full T 1 [v] _ eq_refl : call T 1 (CallableSamples [Some v]) _ = _).
    destruct (call_calculate T [v] (log (EvLoad (in_samps + i) v) s)) as [[r s1]|] eqn:Hc; [|done].
    assert (∃ val, r = RSample val) as [val ->].
    { unfold call_calculate in Hc.
      destruct (Hret (obj (log (EvLoad (in_samps + i) v) s)) v) as [val Hval].
      destruct (calculate T _ [v]) as [r' o']. simpl in Hval. simplify_eq. eauto. }
    simpl. unfold perform_copy_output_sample.
    by rewrite (bind_Some _ _ _ _ _ (chan_ptr_Some out_chans 0 _ _ Hout)).
  - assert (load in_samps i s = None) as Hl by (unfold load, read; by rewrite Hv).
    rewrite (bind_None _ _ _ Hl). symmetry. apply bind_None, bind_None.
    rewrite (bind_Some _ _ _ _ _ (chan_ptr_Some in_chans 0 _ _ Hin)).
    by apply bind_None.
Qed.

Lemma perform_1x1_generic T (in_chans out_chans : list Z) F s :
  inputcount size_bits (base T) = 1 → returns_sample T →
  is_Some (in_chans !! 0%nat) → is_Some (out_chans !! 0%nat) →
  perform_1x1 T in_chans out_chans F s
  = perform_generic size_bits T in_chans out_chans F s.
Proof.
  intros HK Hret [in_samps Hin] [out_samps Hout]. unfold perform_1x1.
  rewrite (bind_Some _ _ _ _ _ (chan_ptr_Some in_chans 0 _ _ Hin)).
  rewrite (bind_Some _ _ _ _ _ (chan_ptr_Some out_chans 0 _ _ Hout)).
  unfold perform_generic, for_int. apply for_from_ext.
  intros i [] s'. by apply frame_1x1_generic.
Qed.

End runs.

(** ** The conversion to [size_t] *)
Lemma to_size_t_small (size_bits z : Z) :
  32 ≤ size_bits → 0 ≤ z ≤ INT_MAX → to_size_t size_bits z = z.
Proof.
  intros Hs Hz. unfold to_size_t. apply Z.mod_small. split; [lia|].
  unfold INT_MAX in Hz.
  assert (2 ^ 31 < 2 ^ size_bits) by (apply Z.pow_lt_mono_r; lia). lia.
Qed.

Lemma to_size_t_range (size_bits z : Z) :
  0 ≤ size_bits → 0 ≤ to_size_t size_bits z < 2 ^ size_bits.
Proof. intros Hs. unfold to_size_t. apply Z.mod_pos_bound. by apply Z.pow_pos_nonneg. Qed.

(** ** Calls of [perform] *)
Section perform_runs.
Context {sample St : Type} (size_bits : Z) (size_bits_32 : 32 ≤ size_bits).
Implicit Types (s : machine sample St) (m : gmap Z sample) (T : min_class sample St).

Lemma counts_of_base T K M :
  base T = SampleOperator K M → 0 ≤ K ≤ INT_MAX → 0 ≤ M ≤ INT_MAX →
  inputcount size_bits (base T) = K ∧ outputcount size_bits (base T) = M.
Proof.
  intros -> HK HM. unfold inputcount, outputcount, m_inputcount, m_outputcount.
  simpl. by rewrite !to_size_t_small.
Qed.

Lemma perform_1x1_tables T (in_chans out_chans : list Z) in_samps out_samps F s :
  in_chans !! 0%nat = Some in_samps → out_chans !! 0%nat = Some out_samps →
  perform_1x1 T in_chans out_chans F s = perform_1x1 T [in_samps] [out_samps] F s.
Proof.
  intros Hin Hout. unfold perform_1x1.
  rewrite (bind_Some _ _ _ _ _ (chan_ptr_Some in_chans 0 _ _ Hin)).
  rewrite (bind_Some _ _ _ _ _ (chan_ptr_Some out_chans 0 _ _ Hout)).
  rewrite (bind_Some _ _ _ _ _ (chan_ptr_Some [in_samps] 0 _ _ eq_refl)).
  by rewrite (bind_Some _ _ _ _ _ (chan_ptr_Some [out_samps] 0 _ _ eq_refl)).
Qed.

Lemma conforming_well_shaped T (K M : nat) :
  conforming T K M → well_shaped T K M M.
Proof.
  intros Hc o args Hlen. specialize (Hc o args Hlen).
  destruct (calculate T o args).1 as [val|vals]; simpl in *; subst; [lia|].
  destruct Hc as [-> _]. lia.
Qed.

Lemma conforming_returns_sample T :
  conforming T 1 1 → returns_sample T.
Proof.
  intros Hc o x. specialize (Hc o [x] eq_refl).
  destruct (calculate T o [x]).1 as [val|vals]; [eauto|]. destruct Hc as [_ []]. done.
Qed.

(** Every well-formed call of the generic performer returns, and its
    effect is that of its frames. *)
Lemma perform_generic_conforming T K M (in_chans out_chans : list Z) F s :
  base T = SampleOperator K M → 0 ≤ K ≤ INT_MAX → 0 ≤ M ≤ INT_MAX →
  conforming T (Z.to_nat K) (Z.to_nat M) →
  length in_chans = Z.to_nat K → length out_chans = Z.to_nat M →
  F ≤ INT_MAX →
  allocated (mem s) in_chans F → allocated (mem s) out_chans F →
  ∃ calls s',
    perform_generic size_bits T in_chans out_chans F s = Some ((), s')
    ∧ length calls = Z.to_nat F
    ∧ frames T in_chans out_chans (Z.to_nat M) 0 calls s s'.
Proof.
  intros Hbase HK HM Hconf Hli Hlo HF Hin Hout.
  destruct (counts_of_base T K M Hbase HK HM) as [HKc HMc].
  destruct (decide (0 ≤ F)) as [HF0|HF0].
  - destruct (perform_generic_frames size_bits T in_chans out_chans F s)
      as (calls & s' & Hrun & Hlen & Hfr);
      rewrite ?HKc, ?HMc, ?take_ge by lia; try done; try lia.
    + rewrite Hlo. by apply conforming_well_shaped.
    + exists calls, s'. rewrite HKc, HMc, take_ge in Hfr by lia. done.
  - exists [], s. split; [|split; [simpl; lia|done]].
    unfold perform_generic. by rewrite for_int_nonpos by lia.
Qed.

(** On the blocks of a class that keeps to its descriptor, the selected
    performer does what the generic one does. *)
Lemma perform_eq_generic T K M (in_chans out_chans : list Z) F s :
  base T = SampleOperator K M → 0 ≤ K ≤ INT_MAX → 0 ≤ M ≤ INT_MAX →
  conforming T (Z.to_nat K) (Z.to_nat M) →
  length in_chans = Z.to_nat K → length out_chans = Z.to_nat M →
  perform size_bits T in_chans out_chans F s
  = perform_generic size_bits T in_chans out_chans F s.
Proof.
  intros Hbase HK HM Hconf Hli Hlo.
  unfold perform, is_1x1. case_bool_decide as H11; [|done].
  rewrite Hbase in H11. simpl in H11. destruct H11 as [-> ->].
  apply perform_1x1_generic.
  - by apply (counts_of_base T 1 1).
  - by apply conforming_returns_sample.
  - apply lookup_lt_is_Some_2. rewrite Hli. simpl. lia.
  - apply lookup_lt_is_Some_2. rewrite Hlo. simpl. lia.
Qed.

Lemma perform_frames T K M (in_chans out_chans : list Z) F s :
  base T = SampleOperator K M → 0 ≤ K ≤ INT_MAX → 0 ≤ M ≤ INT_MAX →
  conforming T (Z.to_nat K) (Z.to_nat M) →
  length in_chans = Z.to_nat K → length out_chans = Z.to_nat M →
  F ≤ INT_MAX →
  allocated (mem s) in_chans F → allocated (mem s) out_chans F →
  ∃ calls s',
    perform size_bits T in_chans out_chans F s = Some ((), s')
    ∧ length calls = Z.to_nat F
    ∧ frames T in_chans out_chans (Z.to_nat M) 0 calls s s'.
Proof.
  intros Hbase HK HM Hconf Hli Hlo HF Hin Hout.
  rewrite (perform_eq_generic T K M) by done.
  by apply (perform_generic_conforming T K M).
Qed.

Lemma returns_sample_conforming T : returns_sample T → conforming T 1 1.
Proof.
  intros Hret o args Hlen. destruct args as [|x [|]]; try done.
  destruct (Hret o x) as [val ->]. done.
Qed.

Lemma perform_1x1_frames T (in_chans out_chans : list Z) in_samps out_samps F s :
  base T = SampleOperator 1 1 → returns_sample T →
  in_chans !! 0%nat = Some in_samps → out_chans !! 0%nat = Some out_samps →
  F ≤ INT_MAX →
  allocated (mem s) [in_samps] F → allocated (mem s) [out_samps] F →
  ∃ calls s',
    perform size_bits T in_chans out_chans F s = Some ((), s')
    ∧ length calls = Z.to_nat F
    ∧ frames T [in_samps] [out_samps] 1 0 calls s s'.
Proof.
  intros Hbase Hret Hin Hout HF Hai Hao.
  destruct (perform_frames T 1 1 [in_samps] [out_samps] F s)
    as (calls & s' & Hrun & Hlen & Hfr); try done.
  { by apply returns_sample_conforming. }
  exists calls, s'. split; [|done]. rewrite <- Hrun.
  unfold perform, is_1x1. rewrite Hbase. simpl.
  by apply perform_1x1_tables.
Qed.

Lemma gather_channel_sample m (chans : list Z) i args :
  gather m chans i = Some args →
  length args = length chans
  ∧ ∀ c, (c < length chans)%nat → args !! c = channel_sample m chans c i.
Proof.
  intros Hg. split; [by eapply gather_length|].
  intros c Hc. destruct (lookup_lt_is_Some_2 _ _ Hc) as [p Hp].
  destruct (gather_lookup _ _ _ _ _ _ Hg Hp) as (v & Hv & Hm).
  unfold channel_sample. rewrite Hp. simpl. congruence.
Qed.

(** What frame [i] of a run loaded and what it left in the output
    buffers, when no store clobbers a later load or an earlier store. *)
Lemma frames_io T (in_chans out_chans : list Z) M F calls s s' i :
  frames T in_chans out_chans M 0 calls s s' → length calls = Z.to_nat F →
  no_clobber in_chans out_chans F → disjoint_channels out_chans F →
  0 ≤ i < F →
  ∃ args o,
    gather (mem s) in_chans i = Some args
    ∧ ∀ (c : nat) q v,
        (c < result_chans M (calculate T o args).1)%nat →
        out_chans !! c = Some q →
        result_vals (calculate T o args).1 !! c = Some v →
        mem s' !! (q + i) = Some v.
Proof.
  intros Hfr Hlen Hnc Hd Hi.
  destruct (lookup_lt_is_Some_2 calls (Z.to_nat i)) as [[args r] Hn]; [lia|].
  destruct (frames_args T _ _ _ F _ _ _ _ _ _ _ Hfr Hnc ltac:(lia) ltac:(lia) Hn)
    as [Hg [o Ho]].
  rewrite Z.add_0_l, Z2Nat.id in Hg by lia.
  exists args, o. split; [done|]. intros c q v Hc Hq Hv. rewrite Ho in *.
  replace i with (0 + Z.of_nat (Z.to_nat i)) by lia.
  eapply (frames_outputs T _ _ _ F); eauto; lia.
Qed.

End perform_runs.

(** ** Traces *)
Section traces.
Context {sample St : Type}.
Implicit Types (s : machine sample St) (T : min_class sample St).
Implicit Types (calls : list (list sample * calc_result sample)).

Lemma calls_trace_block (ins outs : list Z) (M : nat) calls :
  Forall (λ ar, result_chans M ar.2 = length outs) calls →
  calls_trace ins outs M 0 calls = block_trace ins outs calls.
Proof.
  intros H. unfold calls_trace, block_trace. f_equal. apply imap_ext.
  intros n ar Hn. rewrite Forall_lookup in H. rewrite (H n ar Hn).
  by rewrite take_ge, Z.add_0_l.
Qed.

Lemma calls_in_loads (ins : list Z) i (args : list sample) :
  calls_in (zip_with (λ p v, EvLoad (p + i) v) ins args) = [].
Proof. revert args. induction ins as [|p ins IH]; intros [|v args]; simpl; auto. Qed.

Lemma calls_in_stores (outs : list Z) i (vals : list sample) :
  calls_in (zip_with (λ q v, EvStore (q + i) v) outs vals) = [].
Proof. revert vals. induction outs as [|q outs IH]; intros [|v vals]; simpl; auto. Qed.

Lemma calls_in_frame_trace (ins outs : list Z) i (args : list sample) r :
  calls_in (frame_trace ins outs i args r) = [(args, r)].
Proof.
  unfold frame_trace, calls_in. rewrite !omap_app.
  fold (calls_in (zip_with (λ p v, EvLoad (p + i) v) ins args)).
  fold (calls_in (zip_with (λ q v, EvStore (q + i) v) outs (result_vals r))).
  by rewrite calls_in_loads, calls_in_stores.
Qed.

(** The calls a run records are its calls: one per frame, in frame order. *)
Lemma calls_in_block_trace (ins outs : list Z) calls :
  calls_in (block_trace ins outs calls) = calls.
Proof.
  unfold block_trace. generalize Z.of_nat. intros g. revert g.
  induction calls as [|[args r] calls IH]; intros g; [done|].
  simpl. unfold calls_in in *. rewrite omap_app.
  fold (calls_in (frame_trace ins outs (g 0%nat) args r)).
  rewrite calls_in_frame_trace. simpl. f_equal. apply (IH (g ∘ S)).
Qed.

(** Every load of a run reads a cell of an input buffer and every store
    writes a cell of an output buffer, at the index of a frame of the
    run. *)
Lemma block_trace_cells (ins outs : list Z) calls :
  Forall (λ e, match e with
               | EvLoad a _ =>
                   ∃ p i, p ∈ ins ∧ 0 ≤ i < Z.of_nat (length calls) ∧ a = p + i
               | EvStore a _ =>
                   ∃ q i, q ∈ outs ∧ 0 ≤ i < Z.of_nat (length calls) ∧ a = q + i
               | EvCall _ _ => True
               end) (block_trace ins outs calls).
Proof.
  unfold block_trace. apply Forall_concat, Forall_lookup. intros n l Hl.
  rewrite list_lookup_imap in Hl.
  destruct (calls !! n) as [[args r]|] eqn:Hn; [|done]. simpl in Hl. simplify_eq.
  apply lookup_lt_Some in Hn. unfold frame_trace.
  rewrite !Forall_app. repeat split.
  - apply Forall_forall. intros e He.
    apply elem_of_lookup_zip_with in He as (k & p & v & -> & Hp & _).
    exists p, (Z.of_nat n). split; [by eapply list_elem_of_lookup_2|]. split; [lia|done].
  - by repeat constructor.
  - apply Forall_forall. intros e He.
    apply elem_of_lookup_zip_with in He as (k & q & v & -> & Hq & _).
    exists q, (Z.of_nat n). split; [by eapply list_elem_of_lookup_2|]. split; [lia|done].
Qed.

Lemma frames_calls T (ins out_chans : list Z) M i calls s s' :
  frames T ins out_chans M i calls s s' →
  Forall (λ ar, length ar.1 = length ins ∧ ∃ o, (calculate T o ar.1).1 = ar.2) calls.
Proof.
  revert i s. induction calls as [|[args r] calls IH]; intros i s Hf; [done|].
  destruct Hf as (Ha & Hr & Hf). constructor; [|by eapply IH].
  split; [by eapply gather_length|eauto].
Qed.

Lemma conforming_shape T (K M : nat) o args :
  conforming T K M → length args = K →
  result_chans M (calculate T o args).1 = M
  ∧ length (result_vals (calculate T o args).1) = M.
Proof.
  intros Hc Hlen. specialize (Hc o args Hlen).
  destruct (calculate T o args).1 as [val|vals]; simpl; [by subst|]. by destruct Hc.
Qed.

End traces.

(** ** Layouts and counts *)
Lemma separate_no_clobber (ins outs : list Z) F :
  separate ins outs F → no_clobber ins outs F.
Proof.
  unfold separate, no_clobber. intros H.
  eapply Forall_impl; [exact H|]. intros p Hp. simpl in Hp.
  eapply Forall_impl; [exact Hp|]. intros q. simpl. lia.
Qed.

(** ** Calls without frames, calls with too many, and the trace of a call *)
Section calls.
Context {sample St : Type} (size_bits : Z).
Implicit Types (s : machine sample St) (T : min_class sample St).

(** A loop that would have to count beyond [INT_MAX] has no defined
    behaviour, whatever its body does. *)
Lemma for_from_overflow {A} (n : nat) (i : Z) (body : Z → A → M A) (a : A) s :
  i ≤ INT_MAX → INT_MAX < i + Z.of_nat n → for_from n i body a s = None.
Proof.
  revert i a s. induction n as [|n IH]; intros i a s Hi Hn; [lia|].
  simpl. unfold mbind, M_bind. destruct (body i a s) as [[a' s']|]; [|done].
  unfold incr_int. case_decide as Hlt; [|done]. simpl. apply IH; lia.
Qed.

(** X6.  So a call with more than [INT_MAX] frames is undefined on every
    block, whatever the class and the tables; it can only be made where
    [long] is wider than [int]. *)
Lemma perform_overflow T (in_chans out_chans : list Z) (F : Z) s :
  INT_MAX < F → perform size_bits T in_chans out_chans F s = None.
Proof.
  intros HF. unfold perform, perform_1x1, perform_generic, for_int.
  destruct (is_1x1 (base T)).
  - unfold mbind, M_bind.
    destruct (chan_ptr in_chans 0 s) as [[p s1]|]; [|done].
    destruct (chan_ptr out_chans 0 s1) as [[q s2]|]; [|done].
    apply for_from_overflow; unfold INT_MAX in *; lia.
  - apply for_from_overflow; unfold INT_MAX in *; lia.
Qed.

(** A call without frames returns at once. *)
Lemma perform_no_frames T (in_chans out_chans : list Z) (F : Z) s :
  F ≤ 0 →
  (is_1x1 (base T) = true →
     is_Some (in_chans !! 0%nat) ∧ is_Some (out_chans !! 0%nat)) →
  perform size_bits T in_chans out_chans F s = Some ((), s).
Proof.
  intros HF Htab. unfold perform. destruct (is_1x1 (base T)).
  - destruct Htab as [[p Hp] [q Hq]]; [done|]. unfold perform_1x1.
    rewrite (bind_Some _ _ _ _ _ (chan_ptr_Some in_chans 0 _ _ Hp)).
    rewrite (bind_Some _ _ _ _ _ (chan_ptr_Some out_chans 0 _ _ Hq)).
    by apply for_int_nonpos.
  - by apply for_int_nonpos.
Qed.

Lemma frames_block_trace T (K M : nat) (in_chans out_chans : list Z) calls s s' :
  conforming T K M → length in_chans = K → length out_chans = M →
  frames T in_chans out_chans M 0 calls s s' →
  trace s' = trace s ++ block_trace in_chans out_chans calls
  ∧ Forall (λ ar, length ar.1 = K ∧ length (result_vals ar.2) = M) calls.
Proof.
  intros Hconf Hli Hlo Hfr.
  assert (Forall (λ ar, length ar.1 = K ∧ result_chans M ar.2 = M
                        ∧ length (result_vals ar.2) = M) calls) as Hshape.
  { eapply Forall_impl; [by eapply frames_calls|].
    intros [args r] [Hla [o Ho]]. simpl in *. subst r.
    split; [congruence|]. apply (conforming_shape T K M); [done|congruence]. }
  split.
  - rewrite (frames_trace _ _ _ _ _ _ _ _ Hfr). f_equal.
    apply calls_trace_block. eapply Forall_impl; [exact Hshape|].
    intros ar (_ & ? & _). congruence.
  - eapply Forall_impl; [exact Hshape|]. by intros ar (? & _ & ?).
Qed.

End calls.

(** * The claims *)
Section claims.
Context {sample St : Type} (size_bits : Z) (size_bits_32 : 32 ≤ size_bits).
Implicit Types (s : machine sample St) (T : min_class sample St).

(** C1.  A class that derives from [sample_operator<1,1>] and whose
    [calculate] computes the function [f]: on a block of [F] frames,
    [perform] returns and leaves [f] of the sample the caller supplied in
    [in_chans[0][i]] in [out_chans[0][i]], for every frame [i] of the
    block.  The block is one [perform] can run on: [F] fits the [int]
    loop counter, both buffers hold [F] allocated samples, and the output
    buffer is the input buffer itself (an in-place call), or ends before
    it starts, or starts after it ends. *)
Theorem perform_1x1_computes T (f : sample → sample)
    (in_chans out_chans : list Z) (in_samps out_samps F : Z) s :
  base T = SampleOperator 1 1 →
  (∀ o x, (calculate T o [x]).1 = RSample (f x)) →
  in_chans !! 0%nat = Some in_samps → out_chans !! 0%nat = Some out_samps →
  F ≤ INT_MAX →
  allocated (mem s) [in_samps] F → allocated (mem s) [out_samps] F →
  no_clobber [in_samps] [out_samps] F →
  ∃ s', perform size_bits T in_chans out_chans F s = Some ((), s')
    ∧ ∀ i, 0 ≤ i < F →
        ∃ x, channel_sample (mem s) in_chans 0 i = Some x
           ∧ channel_sample (mem s') out_chans 0 i = Some (f x).
Proof.
  intros Hbase Hf Hin Hout HF Hai Hao Hnc.
  destruct (perform_1x1_frames size_bits size_bits_32 T in_chans out_chans
              in_samps out_samps F s) as (calls & s' & Hrun & Hlen & Hfr); try done.
  { intros o x. rewrite Hf. eauto. }
  exists s'. split; [done|]. intros i Hi.
  destruct (frames_io T [in_samps] [out_samps] 1 F calls s s' i)
    as (args & o & Hg & Hout'); try done.
  destruct (gather_channel_sample _ _ _ _ Hg) as [Hla Hargs].
  destruct args as [|x [|]]; try done. exists x.
  unfold channel_sample. rewrite Hin, Hout. simpl. split.
  - specialize (Hargs 0%nat ltac:(simpl; lia)). by symmetry.
  - apply (Hout' 0%nat out_samps (f x)); rewrite ?Hf; simpl; [lia|done|done].
Qed.

(** C2.  A class with descriptor [(K, 1)], [K > 1], whose [calculate]
    computes the function [f] of its [K] arguments, returned as a bare
    sample or as an array of one sample: [perform] returns
    and, for every frame [i], [out_chans[0][i]] ends up holding [f args],
    where [args] is the list of the [K] samples the caller supplied in
    [in_chans[0][i]], ..., [in_chans[K-1][i]], in this order. *)
Theorem perform_Kx1_computes T (K : Z) (f : list sample → sample)
    (in_chans out_chans : list Z) (F : Z) s :
  base T = SampleOperator K 1 → 1 < K ≤ INT_MAX →
  (∀ o args, length args = Z.to_nat K →
     result_vals (calculate T o args).1 = [f args]) →
  length in_chans = Z.to_nat K → length out_chans = 1%nat →
  F ≤ INT_MAX →
  allocated (mem s) in_chans F → allocated (mem s) out_chans F →
  no_clobber in_chans out_chans F →
  ∃ s', perform size_bits T in_chans out_chans F s = Some ((), s')
    ∧ ∀ i, 0 ≤ i < F →
        ∃ args, length args = Z.to_nat K
          ∧ (∀ c, (c < Z.to_nat K)%nat →
               is_Some (args !! c) ∧ args !! c = channel_sample (mem s) in_chans c i)
          ∧ channel_sample (mem s') out_chans 0 i = Some (f args).
Proof.
  intros Hbase HK Hf Hli Hlo HF Hai Hao Hnc.
  destruct (perform_frames size_bits size_bits_32 T K 1 in_chans out_chans F s)
    as (calls & s' & Hrun & Hlen & Hfr); try done; try lia.
  { intros o args Hlen. specialize (Hf o args Hlen).
    destruct (calculate T o args).1 as [val|vals]; simpl in *; [done|].
    subst vals. split; [done|lia]. }
  exists s'. split; [done|]. intros i Hi.
  destruct out_chans as [|q [|]]; try done.
  destruct (frames_io T in_chans [q] (Z.to_nat 1) F calls s s' i)
    as (args & o & Hg & Hout'); try done.
  destruct (gather_channel_sample _ _ _ _ Hg) as [Hla Hargs].
  exists args. split; [congruence|]. split.
  - intros c Hc. split; [apply lookup_lt_is_Some_2; lia|apply Hargs; lia].
  - unfold channel_sample. simpl.
    apply (Hout' 0%nat q (f args)); rewrite ?Hf by congruence; [|done|done].
    destruct (calculate T o args).1; simpl; lia.
Qed.

(** C3.  A class with descriptor [(K, M)], [K, M > 1], whose [calculate]
    returns the array [f args] of [M] samples: [perform] returns and, for
    every frame [i] and every output channel [c < M],
    [out_chans[c][i]] ends up holding slot [c] of [f args], [args] being
    the samples supplied in [in_chans[0][i]], ..., [in_chans[K-1][i]].
    The output buffers are pairwise disjoint. *)
Theorem perform_KxM_computes T (K M : Z) (f : list sample → list sample)
    (in_chans out_chans : list Z) (F : Z) s :
  base T = SampleOperator K M → 1 < K ≤ INT_MAX → 1 < M ≤ INT_MAX →
  (∀ args, length (f args) = Z.to_nat M) →
  (∀ o args, length args = Z.to_nat K → (calculate T o args).1 = RSamples (f args)) →
  length in_chans = Z.to_nat K → length out_chans = Z.to_nat M →
  F ≤ INT_MAX →
  allocated (mem s) in_chans F → allocated (mem s) out_chans F →
  no_clobber in_chans out_chans F → disjoint_channels out_chans F →
  ∃ s', perform size_bits T in_chans out_chans F s = Some ((), s')
    ∧ ∀ i (c : nat), 0 ≤ i < F → (c < Z.to_nat M)%nat →
        ∃ args, length args = Z.to_nat K
          ∧ (∀ k, (k < Z.to_nat K)%nat →
               is_Some (args !! k) ∧ args !! k = channel_sample (mem s) in_chans k i)
          ∧ is_Some (f args !! c)
          ∧ channel_sample (mem s') out_chans c i = f args !! c.
Proof.
  intros Hbase HK HM Hfl Hf Hli Hlo HF Hai Hao Hnc Hd.
  destruct (perform_frames size_bits size_bits_32 T K M in_chans out_chans F s)
    as (calls & s' & Hrun & Hlen & Hfr); try done; try lia.
  { intros o args Hlen. rewrite Hf by done. split; [done|lia]. }
  exists s'. split; [done|]. intros i c Hi Hc.
  destruct (frames_io T in_chans out_chans (Z.to_nat M) F calls s s' i)
    as (args & o & Hg & Hout'); try done.
  destruct (gather_channel_sample _ _ _ _ Hg) as [Hla Hargs].
  exists args. split; [congruence|]. split.
  { intros k Hk. split; [apply lookup_lt_is_Some_2; lia|apply Hargs; lia]. }
  destruct (lookup_lt_is_Some_2 (f args) c) as [v Hv]; [rewrite Hfl; lia|].
  destruct (lookup_lt_is_Some_2 out_chans c) as [q Hq]; [lia|].
  split; [eauto|]. unfold channel_sample. rewrite Hq, Hv. simpl.
  apply (Hout' c q v); rewrite ?Hf by congruence; simpl; done.
Qed.

(** C4.  For a class that derives from [sample_operator<1,1>] and
    returns a bare sample, the 1x1 performer and the generic performer
    (one bundle slot, one argument, bare sample scattered to channel 0)
    agree on every table of pointers that has an input and an output
    channel, on every memory and for every frame count: same outcome,
    same memory, hence same contents of [out_chans[0]], same object
    state, same sequence of loads, calls and stores. *)
Theorem perform_1x1_is_generic T (in_chans out_chans : list Z) (F : Z) s :
  base T = SampleOperator 1 1 → returns_sample T →
  is_Some (in_chans !! 0%nat) → is_Some (out_chans !! 0%nat) →
  perform_1x1 T in_chans out_chans F s
  = perform_generic size_bits T in_chans out_chans F s.
Proof.
  intros Hbase Hret Hin Hout. apply perform_1x1_generic; try done.
  by apply (counts_of_base size_bits size_bits_32 T 1 1).
Qed.

(** C5.  A call with [sampleframes = 0] returns the machine unchanged:
    no sample is loaded, none is stored, [calculate] is not called, and
    the memory, so every output buffer, is what it was.  (The 1x1
    performer reads entry [0] of both pointer tables before its loop, so
    these entries have to exist.) *)
Theorem perform_zero_frames T (in_chans out_chans : list Z) s :
  (is_1x1 (base T) = true →
     is_Some (in_chans !! 0%nat) ∧ is_Some (out_chans !! 0%nat)) →
  perform size_bits T in_chans out_chans 0 s = Some ((), s).
Proof. intros Htab. by apply perform_no_frames. Qed.

(** C9.  A call with a negative [sampleframes] is the call with
    [sampleframes = 0], for both performers: the loop body never runs,
    and the machine is returned unchanged. *)
Theorem perform_negative_frames T (in_chans out_chans : list Z) (F : Z) s :
  F < 0 →
  perform size_bits T in_chans out_chans F s
  = perform size_bits T in_chans out_chans 0 s
  ∧ ((is_1x1 (base T) = true →
        is_Some (in_chans !! 0%nat) ∧ is_Some (out_chans !! 0%nat)) →
     perform size_bits T in_chans out_chans F s = Some ((), s)).
Proof.
  intros HF.
  assert (perform size_bits T in_chans out_chans F s
          = perform size_bits T in_chans out_chans 0 s) as E.
  { unfold perform, perform_1x1, perform_generic, for_int.
    by replace (Z.to_nat F) with (Z.to_nat 0) by lia. }
  split; [done|]. intros Htab. apply perform_no_frames; [lia|done].
Qed.

(** C6.  For every class that keeps to its descriptor, stateful or not,
    the trace of a [perform] call on a block of [F] frames is
    [block_trace]: the frames [0], [1], ..., [F - 1] in this order; in
    each frame the loads of the input channels in ascending channel
    order, then the one [calculate] call on exactly the samples just
    loaded, then the stores to the output channels in ascending channel
    order.  So [calculate] is called once per frame ([calls_in]), each
    call runs on the object the previous call left ([calls_chain],
    [calls_obj]), and nothing but that object reaches the next frame:
    the state after a frame is a function of the frame index and of the
    memory and the object before it ([frames]); the frame loop has no
    local state of its own (its accumulator is [()]) and the bundle is
    built anew in every frame. *)
Theorem perform_frame_order T (K M : Z) (in_chans out_chans : list Z) (F : Z) s :
  base T = SampleOperator K M → 0 ≤ K ≤ INT_MAX → 0 ≤ M ≤ INT_MAX →
  conforming T (Z.to_nat K) (Z.to_nat M) →
  length in_chans = Z.to_nat K → length out_chans = Z.to_nat M →
  F ≤ INT_MAX →
  allocated (mem s) in_chans F → allocated (mem s) out_chans F →
  ∃ calls s',
    perform size_bits T in_chans out_chans F s = Some ((), s')
    ∧ trace s' = trace s ++ block_trace in_chans out_chans calls
    ∧ calls_in (block_trace in_chans out_chans calls) = calls
    ∧ length calls = Z.to_nat F
    ∧ Forall (λ ar, length ar.1 = Z.to_nat K
                    ∧ length (result_vals ar.2) = Z.to_nat M) calls
    ∧ calls_chain T (obj s) calls
    ∧ obj s' = calls_obj T (obj s) calls
    ∧ frames T in_chans out_chans (Z.to_nat M) 0 calls s s'.
Proof.
  intros Hbase HK HM Hconf Hli Hlo HF Hai Hao.
  destruct (perform_frames size_bits size_bits_32 T K M in_chans out_chans F s)
    as (calls & s' & Hrun & Hlen & Hfr); try done.
  destruct (frames_block_trace T _ _ _ _ _ _ _ Hconf Hli Hlo Hfr) as [Htr Hsh].
  destruct (frames_obj _ _ _ _ _ _ _ _ Hfr) as [Hch Hobj].
  exists calls, s'. repeat split; try done. apply calls_in_block_trace.
Qed.

(** C7, amended.  The 1x1 performer loads only from
    [in_chans[0][0 .. F-1]] and stores only to [out_chans[0][0 .. F-1]];
    every cell that is not one of these output cells keeps its contents.
    The input buffer keeps its contents when it does not overlap the
    output buffer. *)
Theorem perform_1x1_footprint T (in_chans out_chans : list Z)
    (in_samps out_samps F : Z) s :
  base T = SampleOperator 1 1 → returns_sample T →
  in_chans !! 0%nat = Some in_samps → out_chans !! 0%nat = Some out_samps →
  F ≤ INT_MAX →
  allocated (mem s) [in_samps] F → allocated (mem s) [out_samps] F →
  ∃ s' tr,
    perform size_bits T in_chans out_chans F s = Some ((), s')
    ∧ trace s' = trace s ++ tr
    ∧ Forall (λ e, match e with
                   | EvLoad a _ => ∃ i, 0 ≤ i < F ∧ a = in_samps + i
                   | EvStore a _ => ∃ i, 0 ≤ i < F ∧ a = out_samps + i
                   | EvCall _ _ => True
                   end) tr
    ∧ (∀ a, (∀ i, 0 ≤ i < F → a ≠ out_samps + i) → mem s' !! a = mem s !! a)
    ∧ (separate [in_samps] [out_samps] F →
       ∀ i, 0 ≤ i < F →
         channel_sample (mem s') in_chans 0 i = channel_sample (mem s) in_chans 0 i).
Proof.
  intros Hbase Hret Hin Hout HF Hai Hao.
  destruct (perform_1x1_frames size_bits size_bits_32 T in_chans out_chans
              in_samps out_samps F s) as (calls & s' & Hrun & Hlen & Hfr); try done.
  destruct (frames_block_trace T 1 1 [in_samps] [out_samps] calls s s') as [Htr _];
    try done.
  { by apply returns_sample_conforming. }
  assert (∀ a, (∀ i, 0 ≤ i < F → a ≠ out_samps + i) → mem s' !! a = mem s !! a)
    as Hframe.
  { intros a Ha. apply (frames_mem_ne _ _ _ _ _ _ _ _ _ Hfr).
    intros q j Hq Hj. apply list_elem_of_singleton in Hq as ->. apply Ha. lia. }
  exists s', (block_trace [in_samps] [out_samps] calls). repeat split; try done.
  - eapply Forall_impl; [apply block_trace_cells|].
    intros [a v|a v|args r]; [| |done].
    + intros (p & i & Hp & Hi & ->). apply list_elem_of_singleton in Hp as ->.
      exists i. split; [lia|done].
    + intros (q & i & Hq & Hi & ->). apply list_elem_of_singleton in Hq as ->.
      exists i. split; [lia|done].
  - intros Hsep i Hi. unfold channel_sample. rewrite Hin. simpl. apply Hframe.
    intros j Hj. apply (separate_ne [in_samps] [out_samps] F); try done;
      by apply list_elem_of_singleton.
Qed.

(** C10.  The generic performer passes to each [calculate] call the
    samples the caller supplied for that frame, loaded from the input
    buffers before the call, and never stores to an input buffer: when no
    input buffer overlaps an output buffer, every input buffer holds
    after the call what it held before. *)
Theorem perform_generic_keeps_inputs T (K M : Z) (in_chans out_chans : list Z)
    (F : Z) s :
  base T = SampleOperator K M → 0 ≤ K ≤ INT_MAX → 0 ≤ M ≤ INT_MAX →
  conforming T (Z.to_nat K) (Z.to_nat M) →
  length in_chans = Z.to_nat K → length out_chans = Z.to_nat M →
  F ≤ INT_MAX →
  allocated (mem s) in_chans F → allocated (mem s) out_chans F →
  separate in_chans out_chans F →
  ∃ calls s',
    perform_generic size_bits T in_chans out_chans F s = Some ((), s')
    ∧ trace s' = trace s ++ block_trace in_chans out_chans calls
    ∧ length calls = Z.to_nat F
    ∧ (∀ (n : nat) args r,
         calls !! n = Some (args, r) → gather (mem s) in_chans (Z.of_nat n) = Some args)
    ∧ (∀ (c : nat) i, 0 ≤ i < F →
         channel_sample (mem s') in_chans c i = channel_sample (mem s) in_chans c i).
Proof.
  intros Hbase HK HM Hconf Hli Hlo HF Hai Hao Hsep.
  destruct (perform_generic_conforming size_bits size_bits_32 T K M
              in_chans out_chans F s) as (calls & s' & Hrun & Hlen & Hfr); try done.
  destruct (frames_block_trace T _ _ _ _ _ _ _ Hconf Hli Hlo Hfr) as [Htr _].
  exists calls, s'. repeat split; try done.
  - intros n args r Hn. pose proof (lookup_lt_Some _ _ _ Hn) as Hlt.
    destruct (frames_args T _ _ _ F _ _ _ _ _ _ _ Hfr
                (separate_no_clobber _ _ _ Hsep) ltac:(lia) ltac:(lia) Hn) as [Hg _].
    by rewrite Z.add_0_l in Hg.
  - intros c i Hi. unfold channel_sample.
    destruct (in_chans !! c) as [p|] eqn:Hp; [|done]. simpl.
    apply (frames_mem_ne _ _ _ _ _ _ _ _ _ Hfr). intros q j Hq Hj.
    apply (separate_ne in_chans out_chans F); try done; try lia.
    by eapply list_elem_of_lookup_2.
Qed.

End claims.

(** C8.  For a descriptor whose declared counts are non-negative [int]s,
    [inputcount()] and [outputcount()] return exactly the declared
    counts, and both are non-negative.  The two functions take the
    template arguments and nothing else: no call can change what they
    return. *)
Theorem counts_are_declared (size_bits : Z) (d : sample_operator) :
  32 ≤ size_bits →
  0 ≤ input_count d ≤ INT_MAX → 0 ≤ output_count d ≤ INT_MAX →
  inputcount size_bits d = input_count d
  ∧ outputcount size_bits d = output_count d
  ∧ 0 ≤ inputcount size_bits d ∧ 0 ≤ outputcount size_bits d.
Proof.
  intros Hs Hi Ho.
  unfold inputcount, outputcount, m_inputcount, m_outputcount.
  rewrite !to_size_t_small by done. lia.
Qed.

(** * Further properties of the dispatch *)

(** ** Loops and their composition *)
Section loops.
Context {sample St : Type}.
Implicit Types (s : machine sample St).

Lemma bind_ext {A B} (c c' : M (sample:=sample) (St:=St) A) (f f' : A → M B) s :
  c s = c' s → (∀ x s', f x s' = f' x s') → (c ≫= f) s = (c' ≫= f') s.
Proof.
  intros Hc Hf. unfold mbind, M_bind. rewrite Hc.
  destruct (c' s) as [[x s']|]; [apply Hf|done].
Qed.

Lemma bind_assoc {A B C} (c : M (sample:=sample) (St:=St) A)
    (f : A → M B) (g : B → M C) s :
  ((c ≫= f) ≫= g) s = (c ≫= λ x, f x ≫= g) s.
Proof.
  unfold mbind, M_bind. destruct (c s) as [[x s']|]; [|done]. done.
Qed.

(** A loop of [n1 + n2] rounds is a loop of [n1] rounds followed by a
    loop of [n2] rounds that starts where the first one stopped. *)
Lemma for_from_app {A} (n1 n2 : nat) (i : Z)
    (body : Z → A → M (sample:=sample) (St:=St) A) a s :
  for_from (n1 + n2) i body a s
  = (for_from n1 i body a ≫= for_from n2 (i + Z.of_nat n1) body) s.
Proof.
  revert i a s. induction n1 as [|n1 IH]; intros i a s.
  - simpl. by rewrite Z.add_0_r.
  - simpl for_from. rewrite bind_assoc. apply bind_ext; [done|]. intros a' s'.
    rewrite bind_assoc. unfold mbind at 1 3, M_bind.
    unfold incr_int. case_decide; [|done]. simpl.
    rewrite IH. by replace (i + 1 + Z.of_nat n1) with (i + Z.of_nat (S n1)) by lia.
Qed.

(** Two loops whose bodies agree round by round agree, as long as
    neither counter overflows. *)
Lemma for_from_shift {A} (n : nat) (i i' : Z)
    (body body' : Z → A → M (sample:=sample) (St:=St) A) a s :
  i + Z.of_nat n ≤ INT_MAX → i' + Z.of_nat n ≤ INT_MAX →
  (∀ (k : nat) a s, (k < n)%nat →
     body (i + Z.of_nat k) a s = body' (i' + Z.of_nat k) a s) →
  for_from n i body a s = for_from n i' body' a s.
Proof.
  revert i i' a s. induction n as [|n IH]; intros i i' a s Hi Hi' Hb; [done|].
  simpl. apply bind_ext.
  { specialize (Hb 0%nat a s). rewrite !Z.add_0_r in Hb. apply Hb. lia. }
  intros a' s'. unfold mbind, M_bind, incr_int.
  rewrite !decide_True by lia. simpl. apply IH; [lia|lia|].
  intros k a'' s'' Hk. specialize (Hb (S k) a'' s'').
  replace (i + 1 + Z.of_nat k) with (i + Z.of_nat (S k)) by lia.
  replace (i' + 1 + Z.of_nat k) with (i' + Z.of_nat (S k)) by lia.
  apply Hb. lia.
Qed.

Lemma chan_ptr_advance (F : Z) (chans : list Z) (c : Z) s :
  chan_ptr (advance F chans) c s
  = (chan_ptr chans c ≫= λ p, mret (p + F)) s.
Proof.
  unfold chan_ptr, lift, advance, mbind at 2, M_bind. case_decide; [|done].
  rewrite list_lookup_fmap. by destruct (chans !! Z.to_nat c).
Qed.

Lemma chan_ptr_None (chans : list Z) (c : nat) s :
  chans !! c = None → chan_ptr chans (Z.of_nat c) s = None.
Proof.
  intros H. unfold chan_ptr, lift. rewrite decide_True by lia.
  by rewrite Nat2Z.id, H.
Qed.

End loops.

(** ** What a call may touch *)
Section footprint.
Context {sample St : Type}.
Implicit Types (s : machine sample St) (T : min_class sample St) (L S : Z → Prop).

Lemma touches_refl L S s : touches L S s s.
Proof.
  split; [done|]. split; [done|]. exists []. by rewrite app_nil_r.
Qed.

Lemma touches_trans L S s1 s2 s3 :
  touches L S s1 s2 → touches L S s2 s3 → touches L S s1 s3.
Proof.
  intros (Hd1 & Hm1 & tr1 & Ht1 & Hf1) (Hd2 & Hm2 & tr2 & Ht2 & Hf2).
  split; [intros a; by rewrite Hd2|]. split.
  - intros a Ha. by rewrite Hm2, Hm1.
  - exists (tr1 ++ tr2). split; [by rewrite Ht2, Ht1, app_assoc|].
    by apply Forall_app.
Qed.

Lemma touches_mono L L' S S' s s' :
  (∀ a, L a → L' a) → (∀ a, S a → S' a) → touches L S s s' → touches L' S' s s'.
Proof.
  intros HL HS (Hd & Hm & tr & Ht & Hf). split; [done|]. split.
  - intros a Ha. apply Hm. auto.
  - exists tr. split; [done|]. eapply Forall_impl; [exact Hf|].
    intros [a v|a v|args r]; auto.
Qed.

Lemma bounded_mono {A} L L' S S' (R R' : A → Prop)
    (c : M (sample:=sample) (St:=St) A) :
  (∀ a, L a → L' a) → (∀ a, S a → S' a) → (∀ x, R x → R' x) →
  bounded L S R c → bounded L' S' R' c.
Proof.
  intros HL HS HR Hc s x s' Hrun. destruct (Hc s x s' Hrun) as [Hx Ht].
  split; [auto|]. by eapply touches_mono.
Qed.

Lemma bounded_ret {A} L S (R : A → Prop) (x : A) :
  R x → bounded L S R (mret x : M (sample:=sample) (St:=St) A).
Proof. intros Hx s y s' [= <- <-]. split; [done|apply touches_refl]. Qed.

Lemma bounded_undefined {A} L S (R : A → Prop) :
  bounded L S R (undefined : M (sample:=sample) (St:=St) A).
Proof. by intros s x s'. Qed.

Lemma bounded_lift {A} L S (R : A → Prop) (o : option A) :
  (∀ x, o = Some x → R x) → bounded L S R (lift o : M (sample:=sample) (St:=St) A).
Proof.
  intros Ho s x s'. unfold lift. destruct o as [y|]; [|done].
  intros [= <- <-]. split; [auto|apply touches_refl].
Qed.

Lemma bounded_bind {A B} L S (R : A → Prop) (R' : B → Prop)
    (c : M (sample:=sample) (St:=St) A) (f : A → M B) :
  bounded L S R c → (∀ x, R x → bounded L S R' (f x)) → bounded L S R' (c ≫= f).
Proof.
  intros Hc Hf s y s'. unfold mbind, M_bind.
  destruct (c s) as [[x s1]|] eqn:Hrun; [|done]. intros Hrun'.
  destruct (Hc s x s1 Hrun) as [Hx Ht1].
  destruct (Hf x Hx s1 y s' Hrun') as [Hy Ht2].
  split; [done|]. by eapply touches_trans.
Qed.

Lemma bounded_read L S (a : Z) :
  L a → bounded L S (λ _, True) (read a : M (sample:=sample) (St:=St) sample).
Proof.
  intros Ha s v s'. unfold read. destruct (mem s !! a) as [w|]; [|done].
  intros [= <- <-]. split; [done|]. split; [done|]. split; [done|].
  exists [EvLoad a w]. split; [done|]. by repeat constructor.
Qed.

Lemma bounded_write L S (a : Z) (v : sample) :
  S a → bounded L S (λ _, True) (write a v : M (sample:=sample) (St:=St) ()).
Proof.
  intros Ha s x s'. unfold write. destruct (mem s !! a) as [w|] eqn:Hw; [|done].
  intros [= <- <-]. split; [done|]. unfold touches, log. simpl. split; [|split].
  - intros a'. rewrite lookup_insert_is_Some. split.
    + intros [<-|[_ ?]]; [by rewrite Hw|done].
    + intros H. destruct (decide (a = a')); auto.
  - intros a' Ha'. apply lookup_insert_ne. by intros <-.
  - exists [EvStore a v]. split; [done|]. by repeat constructor.
Qed.

Lemma bounded_chan_ptr L S (chans : list Z) (c : Z) :
  bounded L S (λ p, p ∈ chans) (chan_ptr chans c : M (sample:=sample) (St:=St) Z).
Proof.
  apply bounded_lift. intros p. case_decide; [|done].
  intros Hp. by eapply list_elem_of_lookup_2.
Qed.

Lemma bounded_call_calculate L S T (args : list sample) :
  bounded L S (λ r, ∃ o, r = (calculate T o args).1) (call_calculate T args).
Proof.
  intros s r s'. unfold call_calculate.
  destruct (calculate T (obj s) args) as [r' o'] eqn:Hc. intros [= <- <-].
  split; [exists (obj s); by rewrite Hc|]. split; [done|]. split; [done|].
  exists [EvCall args r']. split; [done|]. by repeat constructor.
Qed.

Lemma bounded_incr_int L S (i : Z) :
  bounded L S (λ i', i' = i + 1) (incr_int i : M (sample:=sample) (St:=St) Z).
Proof.
  unfold incr_int. case_decide; [by apply bounded_ret|apply bounded_undefined].
Qed.

Lemma bounded_for_from {A} L S (n : nat) (i0 : Z)
    (body : Z → A → M (sample:=sample) (St:=St) A) (a : A) :
  (∀ i a, i0 ≤ i < i0 + Z.of_nat n → bounded L S (λ _, True) (body i a)) →
  bounded L S (λ _, True) (for_from n i0 body a).
Proof.
  revert i0 a. induction n as [|n IH]; intros i0 a Hb; [by apply bounded_ret|].
  simpl. eapply bounded_bind; [apply Hb; lia|]. intros a' _.
  eapply bounded_bind; [apply bounded_incr_int|]. intros i' ->.
  apply IH. intros i a'' Hi. apply Hb. lia.
Qed.

Lemma bounded_for_int {A} L S (bound : Z)
    (body : Z → A → M (sample:=sample) (St:=St) A) (a : A) :
  (∀ i a, 0 ≤ i < bound → bounded L S (λ _, True) (body i a)) →
  bounded L S (λ _, True) (for_int bound body a).
Proof. intros Hb. apply bounded_for_from. intros i a' Hi. apply Hb. lia. Qed.

End footprint.

Section footprint_perform.
Context {sample St : Type} (size_bits : Z).
Implicit Types (s : machine sample St) (T : min_class sample St).

Lemma bounded_gather_body L S (in_chans : list Z) (i chan : Z) ins :
  (∀ p, p ∈ in_chans → L (p + i)) →
  bounded L S (λ _, True)
    (p ← chan_ptr in_chans chan; set chan (p + i) ins
     : M (sample:=sample) (St:=St) (callable_samples sample)).
Proof.
  intros HL.
  eapply bounded_bind; [apply bounded_chan_ptr|]. intros p Hp. unfold set.
  eapply bounded_bind; [apply bounded_read; auto|]. intros v _.
  case_decide; [by apply bounded_ret|apply bounded_undefined].
Qed.

Lemma bounded_gather L S (in_chans : list Z) (i K : Z) ins :
  (∀ p, p ∈ in_chans → L (p + i)) →
  bounded L S (λ _, True)
    (for_int K (λ chan ins, p ← chan_ptr in_chans chan; set chan (p + i) ins) ins
     : M (sample:=sample) (St:=St) (callable_samples sample)).
Proof.
  intros HL. apply bounded_for_int. intros c ins' _. by apply bounded_gather_body.
Qed.

Lemma bounded_call L S T (count : Z) ins :
  bounded L S
    (λ r, ∃ o args, length args = Z.to_nat count ∧ r = (calculate T o args).1)
    (call T count ins).
Proof.
  unfold call.
  eapply (bounded_bind _ _ (λ args, length args = Z.to_nat count)).
  - apply bounded_lift. intros args Hargs. apply length_mapM in Hargs.
    by rewrite <- Hargs, gen_seq_seq, length_seq.
  - intros args Hlen. eapply bounded_mono; [| | |apply bounded_call_calculate]; try done.
    intros r [o ->]. eauto.
Qed.

Lemma bounded_scatter_body L S (out_chans : list Z) (i chan : Z) (vals : list sample) :
  (∀ q, q ∈ out_chans → S (q + i)) →
  bounded L S (λ _, True)
    (p ← chan_ptr out_chans chan; v ← lift (vals !! Z.to_nat chan); store p i v
     : M (sample:=sample) (St:=St) ()).
Proof.
  intros HS.
  eapply bounded_bind; [apply bounded_chan_ptr|]. intros q Hq.
  eapply (bounded_bind _ _ (λ _, True)); [by apply bounded_lift|]. intros v _.
  apply bounded_write. auto.
Qed.

Lemma bounded_copy_output L S T (out_chans : list Z) (i : Z) r :
  (∀ q, q ∈ out_chans → S (q + i)) →
  bounded L S (λ _, True) (perform_copy_output size_bits T i out_chans r).
Proof.
  intros HS. destruct r as [val|vals]; simpl.
  - unfold perform_copy_output_sample.
    eapply bounded_bind; [apply bounded_chan_ptr|]. intros q Hq.
    apply bounded_write. auto.
  - unfold perform_copy_output_samples. apply bounded_for_int. intros c [] _.
    by apply bounded_scatter_body.
Qed.

Lemma bounded_generic_frame_cells L S T (in_chans out_chans : list Z) (i : Z) :
  (∀ p, p ∈ in_chans → L (p + i)) → (∀ q, q ∈ out_chans → S (q + i)) →
  bounded L S (λ _, True) (generic_frame size_bits T in_chans out_chans i).
Proof.
  intros HL HS. unfold generic_frame.
  eapply bounded_bind; [by apply bounded_gather|]. intros ins _.
  eapply bounded_bind; [apply bounded_call|]. intros r _.
  by apply bounded_copy_output.
Qed.

Lemma bounded_generic_frame T (in_chans out_chans : list Z) (F i : Z) :
  0 ≤ i < F →
  bounded (block_cell in_chans F) (block_cell out_chans F) (λ _, True)
    (generic_frame size_bits T in_chans out_chans i).
Proof.
  intros Hi. apply bounded_generic_frame_cells.
  - intros p Hp. by exists p, i.
  - intros q Hq. by exists q, i.
Qed.

Lemma bounded_perform T (in_chans out_chans : list Z) (F : Z) :
  bounded (block_cell in_chans F) (block_cell out_chans F) (λ _, True)
    (perform size_bits T in_chans out_chans F).
Proof.
  unfold perform. destruct (is_1x1 (base T)).
  - unfold perform_1x1.
    eapply bounded_bind; [apply bounded_chan_ptr|]. intros p Hp.
    eapply bounded_bind; [apply bounded_chan_ptr|]. intros q Hq.
    apply bounded_for_int. intros i [] Hi.
    eapply bounded_bind; [apply bounded_read; by exists p, i|]. intros v _.
    eapply bounded_bind; [apply bounded_call_calculate|]. intros [val|vals] _.
    + apply bounded_write. by exists q, i.
    + apply bounded_undefined.
  - rewrite perform_generic_eq. apply bounded_for_int. intros i [] Hi.
    by apply bounded_generic_frame.
Qed.

(** X8.  Whatever the class and the descriptor, a call that returns has
    allocated and freed nothing, has left every cell outside the first
    [F] frames of the output buffers as it was, and has loaded only from
    the first [F] frames of the input buffers and stored only to the
    first [F] frames of the output buffers. *)
Theorem perform_footprint T (in_chans out_chans : list Z) (F : Z) s s' :
  perform size_bits T in_chans out_chans F s = Some ((), s') →
  touches (block_cell in_chans F) (block_cell out_chans F) s s'.
Proof. intros Hrun. by destruct (bounded_perform T in_chans out_chans F s () s' Hrun). Qed.

End footprint_perform.

(** ** Computations that do not return *)
Section failures.
Context {sample St : Type}.
Implicit Types (s : machine sample St) (T : min_class sample St).

(** A loop does not return when one of its rounds cannot: [P] holds of
    the state on entry, every round that returns keeps it, and round
    [k] does not return from a state with [P]. *)
Lemma for_from_fails {A} (P : machine sample St → Prop) (n : nat) (i0 k : Z)
    (body : Z → A → M (sample:=sample) (St:=St) A) (a : A) s :
  P s →
  (∀ i a s a' s', body i a s = Some (a', s') → P s → P s') →
  i0 ≤ k < i0 + Z.of_nat n →
  (∀ a s, P s → body k a s = None) →
  for_from n i0 body a s = None.
Proof.
  intros HP Hkeep Hk Hfail. revert i0 a s HP Hk.
  induction n as [|n IH]; intros i0 a s HP Hk; [lia|].
  simpl. unfold mbind, M_bind.
  destruct (body i0 a s) as [[a' s']|] eqn:Hrun; [|done].
  destruct (decide (k = i0)) as [->|Hne]; [by rewrite Hfail in Hrun|].
  unfold incr_int. case_decide; [|done]. simpl.
  apply IH; [by eapply Hkeep|lia].
Qed.

Lemma for_int_fails {A} (P : machine sample St → Prop) (bound k : Z)
    (body : Z → A → M (sample:=sample) (St:=St) A) (a : A) s :
  P s →
  (∀ i a s a' s', body i a s = Some (a', s') → P s → P s') →
  0 ≤ k < bound →
  (∀ a s, P s → body k a s = None) →
  for_int bound body a s = None.
Proof.
  intros HP Hkeep Hk Hfail. apply (for_from_fails P _ 0 k); [done|done|lia|done].
Qed.

(** What is not allocated stays so through a computation that touches
    memory through [read] and [write] alone. *)
Lemma bounded_keeps_None {A} L S (R : A → Prop) (c : M (sample:=sample) (St:=St) A)
    (a : Z) s x s' :
  bounded L S R c → c s = Some (x, s') → mem s !! a = None → mem s' !! a = None.
Proof.
  intros Hc Hrun Ha. destruct (Hc s x s' Hrun) as [_ [Hd _]].
  apply eq_None_not_Some. rewrite Hd, Ha. by intros [? ?].
Qed.

End failures.

(** ** The index sequence and the bundle *)

(** X1.  [gen_seq<N>] is the index sequence [0, 1, ..., N-1]: it has an
    entry [k] at every position [k] below [N], and none from [N] on. *)
Theorem gen_seq_ascending (N k : nat) :
  gen_seq N [] !! k = if decide (k < N)%nat then Some k else None.
Proof.
  rewrite gen_seq_app, app_nil_r. case_decide as Hk.
  - by apply lookup_seq_lt.
  - apply lookup_seq_ge. lia.
Qed.

Section bundle.
Context {sample St : Type}.
Implicit Types (s : machine sample St) (T : min_class sample St).

Lemma mapM_slots (d : list (option sample)) :
  mapM (λ i : nat, mjoin (d !! i)) (seq 0 (length d)) = mapM id d.
Proof.
  destruct (mapM id d) as [args|] eqn:Hd.
  - apply mapM_Some in Hd. apply mapM_Some.
    apply Forall2_same_length_lookup_2.
    { rewrite length_seq. by eapply Forall2_length. }
    intros n x y Hx Hy. apply lookup_seq in Hx as [-> _]. simpl.
    destruct (Forall2_lookup_r _ _ _ _ _ Hd Hy) as (o & -> & Ho). by simpl in *.
  - apply mapM_None in Hd. apply mapM_None.
    apply Exists_exists in Hd as (o & Ho & Hnone). simpl in Hnone. subst o.
    apply list_elem_of_lookup in Ho as [k Hk]. apply Exists_exists.
    exists k. split; [|by rewrite Hk].
    apply elem_of_seq. pose proof (lookup_lt_Some _ _ _ Hk). lia.
Qed.

(** X2.  [call] on a bundle of [count] slots passes [calculate] the
    samples of all the slots, in slot order, when every slot has been
    set; it has no defined behaviour when a slot has not. *)
Theorem call_slots T (count : Z) (ins : callable_samples sample) s :
  length (data ins) = Z.to_nat count →
  call T count ins s
  = (args ← lift (mapM id (data ins)); call_calculate T args) s.
Proof.
  intros Hlen. unfold call. by rewrite gen_seq_seq, <- Hlen, mapM_slots.
Qed.

End bundle.

(** ** Tables and arrays that are too short *)
Section bounds.
Context {sample St : Type} (size_bits : Z).
Implicit Types (s : machine sample St) (T : min_class sample St).

(** X3.  The array overload of [perform_copy_output] checks neither the
    array nor the table of output pointers against the declared output
    count: with fewer values, or fewer output pointers, than
    [outputcount()] it has no defined behaviour. *)
Theorem perform_copy_output_unchecked T (index : Z) (out_chans : list Z)
    (vals : list sample) s :
  Z.of_nat (length vals) < outputcount size_bits (base T)
  ∨ Z.of_nat (length out_chans) < outputcount size_bits (base T) →
  perform_copy_output size_bits T index out_chans (RSamples vals) s = None.
Proof.
  intros Hshort. simpl. unfold perform_copy_output_samples.
  destruct Hshort as [Hv|Ho].
  - apply (for_int_fails (λ _, True) _ (Z.of_nat (length vals))); [done|done|lia|].
    intros [] s' _. unfold mbind, M_bind.
    destruct (chan_ptr out_chans _ s') as [[p s1]|]; [|done].
    unfold lift. rewrite Nat2Z.id. by rewrite (lookup_ge_None_2 vals).
  - apply (for_int_fails (λ _, True) _ (Z.of_nat (length out_chans))); [done|done|lia|].
    intros [] s' _. apply bind_None, chan_ptr_None. by apply lookup_ge_None_2.
Qed.

Lemma gather_short_table T (in_chans : list Z) (i : Z) (K : Z) ins s :
  Z.of_nat (length in_chans) < K →
  for_int K (λ chan ins, p ← chan_ptr in_chans chan; set chan (p + i) ins) ins s
  = (None : option (callable_samples sample * machine sample St)).
Proof.
  intros HK.
  apply (for_int_fails (λ _, True) _ (Z.of_nat (length in_chans))); [done|done|lia|].
  intros ins' s' _. apply bind_None, chan_ptr_None. by apply lookup_ge_None_2.
Qed.

(** X5.  A call with at least one frame and a table of input pointers
    shorter than [inputcount()] has no defined behaviour, whatever the
    class: the table is indexed without a check. *)
Theorem perform_short_in_table T (in_chans out_chans : list Z) (F : Z) s :
  32 ≤ size_bits →
  Z.of_nat (length in_chans) < inputcount size_bits (base T) → 1 ≤ F →
  perform size_bits T in_chans out_chans F s = None.
Proof.
  intros Hsize HK HF. unfold perform, is_1x1. case_bool_decide as H11.
  - destruct H11 as [H1 _]. unfold inputcount, m_inputcount in HK.
    rewrite H1, to_size_t_small in HK by (unfold INT_MAX; lia).
    destruct in_chans as [|p in_chans]; [|simpl in HK; lia].
    unfold perform_1x1. by apply bind_None, (chan_ptr_None [] 0).
  - rewrite perform_generic_eq.
    apply (for_int_fails (λ _, True) _ 0); [done|done|lia|].
    intros [] s' _. unfold generic_frame. by apply bind_None, gather_short_table.
Qed.

End bounds.

(** ** When a call is defined *)
Section defined.
Context {sample St : Type} (size_bits : Z).
Implicit Types (s : machine sample St) (T : min_class sample St).

Lemma generic_frame_keeps_None T (in_chans out_chans : list Z) (i a : Z) s x s' :
  generic_frame size_bits T in_chans out_chans i s = Some (x, s') →
  mem s !! a = None → mem s' !! a = None.
Proof.
  apply (bounded_keeps_None (λ _, True) (λ _, True) (λ _, True)).
  by apply bounded_generic_frame_cells.
Qed.

Lemma generic_frame_unallocated_in T (in_chans out_chans : list Z) (i : Z)
    (c : nat) (p : Z) s :
  in_chans !! c = Some p → Z.of_nat c < inputcount size_bits (base T) →
  mem s !! (p + i) = None →
  generic_frame size_bits T in_chans out_chans i s = None.
Proof.
  intros Hp Hc Ha. unfold generic_frame. apply bind_None.
  apply (for_int_fails (λ s, mem s !! (p + i) = None) _ (Z.of_nat c));
    [done| |lia|].
  - intros k ins s1 ins' s1'.
    apply (bounded_keeps_None (λ _, True) (λ _, True) (λ _, True)).
    by apply bounded_gather_body.
  - intros ins s1 Hs1.
    rewrite (bind_Some _ _ _ _ _ (chan_ptr_Some in_chans c _ s1 Hp)).
    unfold set. apply bind_None. unfold read. by rewrite Hs1.
Qed.

Lemma generic_frame_unallocated_out T (K M : nat) (in_chans out_chans : list Z)
    (i : Z) (c : nat) (q : Z) s :
  conforming T K M →
  inputcount size_bits (base T) = Z.of_nat K →
  outputcount size_bits (base T) = Z.of_nat M →
  out_chans !! c = Some q → (c < M)%nat →
  mem s !! (q + i) = None →
  generic_frame size_bits T in_chans out_chans i s = None.
Proof.
  intros Hconf HK HM Hq Hc Ha. unfold generic_frame, mbind, M_bind.
  destruct (for_int _ _ _ s) as [[ins s1]|] eqn:Hgather; [|done].
  assert (mem s1 !! (q + i) = None) as Ha1.
  { eapply (bounded_keeps_None (λ _, True) (λ _, True) (λ _, True));
      [|exact Hgather|done]. by apply bounded_gather. }
  destruct (call T _ ins s1) as [[r s2]|] eqn:Hcall; [|done].
  destruct (bounded_call (λ _, True) (λ _, True) T _ ins s1 r s2 Hcall)
    as [(o & args & Hlen & ->) [Hd _]].
  assert (mem s2 !! (q + i) = None) as Ha2.
  { apply eq_None_not_Some. rewrite Hd, Ha1. by intros [? ?]. }
  rewrite HK, Nat2Z.id in Hlen. specialize (Hconf o args Hlen).
  destruct (calculate T o args).1 as [val|vals]; simpl.
  - subst M. assert (c = 0%nat) as -> by lia. unfold perform_copy_output_sample.
    rewrite (bind_Some _ _ _ _ _ (chan_ptr_Some out_chans 0 _ s2 Hq)).
    unfold store, write. by rewrite Ha2.
  - destruct Hconf as [Hlv _]. unfold perform_copy_output_samples.
    apply (for_int_fails (λ s, mem s !! (q + i) = None) _ (Z.of_nat c));
      [done| |lia|].
    + intros k [] s3 [] s3'.
      apply (bounded_keeps_None (λ _, True) (λ _, True) (λ _, True)).
      by apply bounded_scatter_body.
    + intros [] s3 Hs3.
      rewrite (bind_Some _ _ _ _ _ (chan_ptr_Some out_chans c _ s3 Hq)).
      destruct (lookup_lt_is_Some_2 vals c) as [v Hv]; [lia|].
      rewrite (bind_Some _ _ _ v s3) by (unfold lift; by rewrite Nat2Z.id, Hv).
      unfold store, write. by rewrite Hs3.
Qed.

Lemma perform_generic_unallocated T (in_chans out_chans : list Z) (F i a : Z) s :
  0 ≤ i < F → mem s !! a = None →
  (∀ s', mem s' !! a = None →
         generic_frame size_bits T in_chans out_chans i s' = None) →
  perform_generic size_bits T in_chans out_chans F s = None.
Proof.
  intros Hi Ha Hfail. rewrite perform_generic_eq.
  apply (for_int_fails (λ s, mem s !! a = None) _ i); [done| |done|].
  - intros k [] s1 [] s1'. apply generic_frame_keeps_None.
  - intros [] s1. apply Hfail.
Qed.

(** X7.  For a class that keeps to its descriptor, called with tables of
    the declared sizes and at most [INT_MAX] frames, the call returns
    exactly when every cell of the first [F] frames of every input and
    output buffer is allocated. *)
Theorem perform_defined_iff T (K M : Z) (in_chans out_chans : list Z) (F : Z) s :
  32 ≤ size_bits →
  base T = SampleOperator K M → 0 ≤ K ≤ INT_MAX → 0 ≤ M ≤ INT_MAX →
  conforming T (Z.to_nat K) (Z.to_nat M) →
  length in_chans = Z.to_nat K → length out_chans = Z.to_nat M →
  F ≤ INT_MAX →
  is_Some (perform size_bits T in_chans out_chans F s)
  ↔ allocated (mem s) in_chans F ∧ allocated (mem s) out_chans F.
Proof.
  intros Hsize Hbase HK HM Hconf Hli Hlo HF.
  destruct (counts_of_base size_bits Hsize T K M Hbase HK HM) as [HKc HMc].
  split.
  - rewrite (perform_eq_generic size_bits Hsize T K M) by done. intros Hdef.
    assert (∀ a i, 0 ≤ i < F →
              (∀ s', mem s' !! a = None →
                     generic_frame size_bits T in_chans out_chans i s' = None) →
              is_Some (mem s !! a)) as Hcell.
    { intros a i Hi Hfail. destruct (mem s !! a) as [v|] eqn:Ha; [eauto|].
      rewrite (perform_generic_unallocated T _ _ F i a s Hi Ha Hfail) in Hdef.
      by destruct Hdef. }
    split; apply Forall_forall; intros p Hp; apply Forall_forall; intros i Hi;
      apply elem_of_seqZ in Hi; apply list_elem_of_lookup in Hp as [c Hc];
      pose proof (lookup_lt_Some _ _ _ Hc) as Hlt;
      apply (Hcell (p + i) i); try lia; intros s' Hs'.
    + apply (generic_frame_unallocated_in T _ _ _ c p); try done. lia.
    + apply (generic_frame_unallocated_out T (Z.to_nat K) (Z.to_nat M) _ _ _ c p);
        try done; lia.
  - intros [Hai Hao].
    destruct (perform_frames size_bits Hsize T K M in_chans out_chans F s)
      as (calls & s' & Hrun & _); try done.
Qed.

End defined.

(** ** Classes that return a bare sample *)
Section bare_sample.
Context {sample St : Type} (size_bits : Z).
Implicit Types (s : machine sample St) (T : min_class sample St).

Lemma generic_frame_sample_valued T (in_chans out_chans : list Z) (i : Z) s :
  sample_valued T (Z.to_nat (inputcount size_bits (base T))) →
  generic_frame size_bits T in_chans out_chans i s
  = generic_frame size_bits T in_chans (take 1 out_chans) i s.
Proof.
  intros Hsv. unfold generic_frame, mbind, M_bind.
  destruct (for_int _ _ _ s) as [[ins s1]|]; [|done].
  destruct (call T _ ins s1) as [[r s2]|] eqn:Hcall; [|done].
  destruct (bounded_call (λ _, True) (λ _, True) T _ ins s1 r s2 Hcall)
    as [(o & args & Hlen & ->) _].
  destruct (Hsv o args Hlen) as [val ->]. simpl.
  unfold perform_copy_output_sample, chan_ptr. simpl.
  by destruct out_chans.
Qed.

Lemma perform_generic_sample_valued T (in_chans out_chans : list Z) (F : Z) s :
  sample_valued T (Z.to_nat (inputcount size_bits (base T))) →
  perform_generic size_bits T in_chans out_chans F s
  = perform_generic size_bits T in_chans (take 1 out_chans) F s.
Proof.
  intros Hsv. rewrite !perform_generic_eq. unfold for_int.
  apply for_from_ext. intros i [] s1. by apply generic_frame_sample_valued.
Qed.

(** X4.  A class of the generic performer whose [calculate] returns a
    bare sample has that sample stored in [out_chans[0]], whatever its
    declared output count is.  The call is defined as soon as the inputs
    and the first output buffer are allocated; it makes one call per
    frame, [calls], each on the object the calls before it left and on
    the samples supplied for its frame; frame [n] of the first output
    buffer receives the sample that call [n] returned, and no other cell
    changes; the remaining output pointers are not even looked at. *)
Theorem perform_bare_sample T (K M : Z) (in_chans out_chans : list Z) (q F : Z) s :
  32 ≤ size_bits →
  base T = SampleOperator K M → 0 ≤ K ≤ INT_MAX → 0 ≤ M ≤ INT_MAX →
  is_1x1 (base T) = false → sample_valued T (Z.to_nat K) →
  length in_chans = Z.to_nat K → out_chans !! 0%nat = Some q →
  F ≤ INT_MAX →
  allocated (mem s) in_chans F → allocated (mem s) [q] F →
  no_clobber in_chans [q] F →
  ∃ calls s',
    perform size_bits T in_chans out_chans F s = Some ((), s')
    ∧ touches (block_cell in_chans F) (block_cell [q] F) s s'
    ∧ length calls = Z.to_nat F
    ∧ calls_chain T (obj s) calls
    ∧ obj s' = calls_obj T (obj s) calls
    ∧ ∀ (n : nat) args r, calls !! n = Some (args, r) →
        gather (mem s) in_chans (Z.of_nat n) = Some args
        ∧ ∃ val, r = RSample val ∧ mem s' !! (q + Z.of_nat n) = Some val.
Proof.
  intros Hbits Hbase HK HM H11 Hsv Hli Hq HF Hai Hao Hnc.
  assert (take 1 out_chans = [q]) as Htake.
  { destruct out_chans as [|q' rest]; simplify_eq/=. by rewrite take_0. }
  destruct (counts_of_base size_bits Hbits T K M Hbase HK HM) as [HKc HMc].
  assert (∀ s', perform size_bits T in_chans [q] F s = Some ((), s') →
            perform size_bits T in_chans out_chans F s = Some ((), s')) as Hto.
  { intros s'. unfold perform. rewrite H11.
    rewrite (perform_generic_sample_valued T in_chans out_chans), Htake; [done|].
    by rewrite HKc. }
  destruct (decide (0 ≤ F)) as [HF0|HF0].
  - destruct (perform_generic_frames size_bits T in_chans [q] F s)
      as (calls & s' & Hrun & Hlen & Hfr); rewrite ?HKc, ?HMc; try done; try lia.
    { intros o args Hlen. destruct (Hsv o args Hlen) as [val ->]. simpl. lia. }
    { by rewrite take_ge by lia. }
    rewrite take_ge, HMc in Hfr by lia.
    assert (perform size_bits T in_chans [q] F s = Some ((), s')) as Hrun'.
    { unfold perform. by rewrite H11. }
    destruct (frames_obj _ _ _ _ _ _ _ _ Hfr) as [Hchain Hobj].
    exists calls, s'. split; [auto|]. split.
    { by destruct (bounded_perform size_bits T in_chans [q] F s () s' Hrun'). }
    split; [done|]. split; [done|]. split; [done|].
    intros n args r Hn. pose proof (lookup_lt_Some _ _ _ Hn) as Hlt.
    destruct (frames_args T _ _ _ F _ _ _ _ _ _ _ Hfr Hnc ltac:(lia) ltac:(lia) Hn)
      as [Hg [o Ho]].
    rewrite Z.add_0_l in Hg. split; [done|].
    destruct (Hsv o args) as [val Hval].
    { apply gather_length in Hg. congruence. }
    rewrite Ho in Hval. clear Ho. subst r. exists val. split; [done|].
    replace (Z.of_nat n) with (0 + Z.of_nat n) by lia.
    apply (frames_outputs T in_chans [q] (Z.to_nat M) F 0 calls s s' n 0%nat args
             (RSample val) q val); try done; try lia.
    simpl. lia.
  - exists [], s. split; [|split; [|split; [|split; [|split]]]]; try done.
    + apply Hto. unfold perform. rewrite H11. rewrite perform_generic_eq.
      apply for_int_nonpos. lia.
    + apply touches_refl.
    + simpl. lia.
Qed.

End bare_sample.

(** ** Processing a block in parts *)
Section split.
Context {sample St : Type} (size_bits : Z).
Implicit Types (s : machine sample St) (T : min_class sample St).

Lemma perform_copy_output_advance T (F i : Z) (out_chans : list Z) r s :
  perform_copy_output size_bits T (F + i) out_chans r s
  = perform_copy_output size_bits T i (advance F out_chans) r s.
Proof.
  destruct r as [val|vals]; simpl.
  - unfold perform_copy_output_sample.
    rewrite (bind_ext _ _ _ _ _ (chan_ptr_advance F out_chans 0 s) (λ _ _, eq_refl)).
    rewrite bind_assoc. apply bind_ext; [done|]. intros p s'.
    unfold mbind, M_bind, mret, M_ret, store. by rewrite Z.add_assoc.
  - unfold perform_copy_output_samples, for_int. apply for_from_ext.
    intros c [] s'.
    rewrite (bind_ext _ _ _ _ _ (chan_ptr_advance F out_chans c s') (λ _ _, eq_refl)).
    rewrite bind_assoc. apply bind_ext; [done|]. intros p s''.
    unfold mbind at 2, M_bind, mret, M_ret. apply bind_ext; [done|].
    intros v s3. unfold store. by rewrite Z.add_assoc.
Qed.

Lemma generic_frame_advance T (F i : Z) (in_chans out_chans : list Z) s :
  generic_frame size_bits T in_chans out_chans (F + i) s
  = generic_frame size_bits T (advance F in_chans) (advance F out_chans) i s.
Proof.
  unfold generic_frame. apply bind_ext.
  - unfold for_int. apply for_from_ext. intros c ins s'.
    rewrite (bind_ext _ _ _ _ _ (chan_ptr_advance F in_chans c s') (λ _ _, eq_refl)).
    rewrite bind_assoc. apply bind_ext; [done|]. intros p s''.
    unfold mbind, M_bind, mret, M_ret. by rewrite Z.add_assoc.
  - intros ins s'. apply bind_ext; [done|]. intros r s''.
    apply perform_copy_output_advance.
Qed.

Lemma perform_generic_split T (in_chans out_chans : list Z) (F1 F2 : Z) s :
  0 ≤ F1 → 0 ≤ F2 → F1 + F2 ≤ INT_MAX →
  perform_generic size_bits T in_chans out_chans (F1 + F2) s
  = (perform_generic size_bits T in_chans out_chans F1
     ≫= λ _, perform_generic size_bits T (advance F1 in_chans) (advance F1 out_chans) F2) s.
Proof.
  intros H1 H2 H12. rewrite !perform_generic_eq. unfold for_int.
  rewrite Z2Nat.inj_add, for_from_app by lia. apply bind_ext; [done|].
  intros [] s'. unfold for_int.
  apply for_from_shift; [lia|lia|]. intros k [] s'' Hk.
  rewrite Z.add_0_l, Z2Nat.id by lia. apply generic_frame_advance.
Qed.

Lemma perform_1x1_split T (in_chans out_chans : list Z) (F1 F2 : Z) s :
  0 ≤ F1 → 0 ≤ F2 → F1 + F2 ≤ INT_MAX →
  perform_1x1 T in_chans out_chans (F1 + F2) s
  = (perform_1x1 T in_chans out_chans F1
     ≫= λ _, perform_1x1 T (advance F1 in_chans) (advance F1 out_chans) F2) s.
Proof.
  intros H1 H2 H12. unfold perform_1x1.
  destruct (in_chans !! 0%nat) as [p|] eqn:Hp.
  2:{ pose proof (chan_ptr_None in_chans 0 s Hp) as E.
      rewrite (bind_None _ _ _ E). symmetry. by apply bind_None, bind_None. }
  destruct (out_chans !! 0%nat) as [q|] eqn:Hq.
  2:{ pose proof (chan_ptr_None out_chans 0 s Hq) as E.
      rewrite (bind_Some _ _ _ _ _ (chan_ptr_Some in_chans 0 _ s Hp)).
      rewrite (bind_None _ _ _ E). symmetry. apply bind_None.
      rewrite (bind_Some _ _ _ _ _ (chan_ptr_Some in_chans 0 _ s Hp)).
      by apply bind_None. }
  rewrite (bind_Some _ _ _ _ _ (chan_ptr_Some in_chans 0 _ s Hp)).
  rewrite (bind_Some _ _ _ _ _ (chan_ptr_Some out_chans 0 _ s Hq)).
  unfold for_int. rewrite Z2Nat.inj_add, for_from_app by lia.
  symmetry. rewrite bind_assoc.
  rewrite (bind_Some _ _ _ _ _ (chan_ptr_Some in_chans 0 _ s Hp)).
  rewrite bind_assoc.
  rewrite (bind_Some _ _ _ _ _ (chan_ptr_Some out_chans 0 _ s Hq)).
  apply bind_ext; [done|]. intros [] s'.
  assert (advance F1 in_chans !! 0%nat = Some (p + F1)) as Hp'
    by (unfold advance; by rewrite list_lookup_fmap, Hp).
  assert (advance F1 out_chans !! 0%nat = Some (q + F1)) as Hq'
    by (unfold advance; by rewrite list_lookup_fmap, Hq).
  rewrite (bind_Some _ _ _ _ _ (chan_ptr_Some _ 0 _ s' Hp')).
  rewrite (bind_Some _ _ _ _ _ (chan_ptr_Some _ 0 _ s' Hq')).
  symmetry. apply for_from_shift; [lia|lia|]. intros k [] s'' Hk.
  rewrite Z2Nat.id by lia. unfold load, store.
  replace (p + F1 + (0 + Z.of_nat k)) with (p + (F1 + Z.of_nat k)) by lia.
  by replace (q + F1 + (0 + Z.of_nat k)) with (q + (F1 + Z.of_nat k)) by lia.
Qed.

(** X9.  A block can be processed in two parts: a call on [F1 + F2]
    frames is a call on the first [F1] frames followed by a call on the
    next [F2] frames, with all the pointers advanced by [F1], on the
    machine the first call left; this holds for every class, stateful
    or not, and includes the blocks on which the call is undefined. *)
Theorem perform_split T (in_chans out_chans : list Z) (F1 F2 : Z) s :
  0 ≤ F1 → 0 ≤ F2 → F1 + F2 ≤ INT_MAX →
  perform size_bits T in_chans out_chans (F1 + F2) s
  = (perform size_bits T in_chans out_chans F1
     ≫= λ _, perform size_bits T (advance F1 in_chans) (advance F1 out_chans) F2) s.
Proof.
  intros H1 H2 H12. unfold perform. destruct (is_1x1 (base T)).
  - by apply perform_1x1_split.
  - by apply perform_generic_split.
Qed.

End split.

(** ** Tables that are too long, and causality *)
Section tables.
Context {sample St : Type} (size_bits : Z).
Implicit Types (s : machine sample St) (T : min_class sample St).

Lemma chan_ptr_take (n : nat) (chans : list Z) (c : nat) s :
  (c < n)%nat →
  chan_ptr chans (Z.of_nat c) s = chan_ptr (take n chans) (Z.of_nat c) s.
Proof.
  intros Hc. unfold chan_ptr. rewrite !decide_True by lia.
  rewrite !Nat2Z.id. by rewrite lookup_take_lt by done.
Qed.

Lemma generic_frame_take T (K M : Z) (in_chans out_chans : list Z) (i : Z) s :
  inputcount size_bits (base T) = K → outputcount size_bits (base T) = M →
  0 ≤ K ≤ INT_MAX → 1 ≤ M ≤ INT_MAX →
  generic_frame size_bits T in_chans out_chans i s
  = generic_frame size_bits T (take (Z.to_nat K) in_chans)
      (take (Z.to_nat M) out_chans) i s.
Proof.
  intros HKc HMc HK HM. unfold generic_frame. rewrite HKc. apply bind_ext.
  - unfold for_int. apply for_from_shift; [lia|lia|]. intros k ins s1 Hk.
    rewrite Z.add_0_l. apply bind_ext; [by apply chan_ptr_take|done].
  - intros ins s1. apply bind_ext; [done|]. intros [val|vals] s2; simpl.
    + unfold perform_copy_output_sample.
      apply bind_ext; [apply (chan_ptr_take _ _ 0); lia|done].
    + unfold perform_copy_output_samples, for_int. rewrite HMc.
      apply for_from_shift; [lia|lia|]. intros k [] s3 Hk.
      rewrite Z.add_0_l. apply bind_ext; [by apply chan_ptr_take|done].
Qed.

(** X13.  The performers use the declared counts and never [numins] or
    [numouts]: for a class that declares at least one output, the
    pointers beyond the first [inputcount()] input pointers and the
    first [outputcount()] output pointers are never used; a call with
    longer tables is the call with the tables cut to the declared
    counts. *)
Theorem perform_ignores_extra_pointers T (K M : Z) (in_chans out_chans : list Z)
    (F : Z) s :
  32 ≤ size_bits →
  base T = SampleOperator K M → 0 ≤ K ≤ INT_MAX → 1 ≤ M ≤ INT_MAX →
  perform size_bits T in_chans out_chans F s
  = perform size_bits T (take (Z.to_nat K) in_chans)
      (take (Z.to_nat M) out_chans) F s.
Proof.
  intros Hbits Hbase HK HM.
  destruct (counts_of_base size_bits Hbits T K M Hbase HK ltac:(lia)) as [HKc HMc].
  unfold perform, is_1x1. case_bool_decide as H11.
  - rewrite Hbase in H11. simpl in H11. destruct H11 as [-> ->].
    unfold perform_1x1.
    apply bind_ext; [apply (chan_ptr_take _ _ 0); lia|]. intros p s1.
    apply bind_ext; [apply (chan_ptr_take _ _ 0); lia|done].
  - rewrite !perform_generic_eq. unfold for_int. apply for_from_ext.
    intros i [] s1. by apply generic_frame_take.
Qed.

(** X14.  The dispatch is causal, for every class, stateful or not: when
    the output buffers are pairwise disjoint, the first [F1] frames of
    the output of a call on [F1 + F2] frames are the output of the call
    on [F1] frames alone, which returns too. *)
Theorem perform_causal T (in_chans out_chans : list Z) (F1 F2 : Z) s s' :
  0 ≤ F1 → 0 ≤ F2 → F1 + F2 ≤ INT_MAX →
  disjoint_channels out_chans (F1 + F2) →
  perform size_bits T in_chans out_chans (F1 + F2) s = Some ((), s') →
  ∃ s1, perform size_bits T in_chans out_chans F1 s = Some ((), s1)
    ∧ ∀ (c : nat) i, 0 ≤ i < F1 →
        channel_sample (mem s') out_chans c i
        = channel_sample (mem s1) out_chans c i.
Proof.
  intros H1 H2 H12 Hd Hrun.
  assert (perform size_bits T in_chans out_chans (F1 + F2) s
          = (perform size_bits T in_chans out_chans F1
             ≫= λ _, perform size_bits T (advance F1 in_chans)
                       (advance F1 out_chans) F2) s) as Hparts.
  { unfold perform. destruct (is_1x1 (base T));
      [by apply perform_1x1_split|by apply perform_generic_split]. }
  rewrite Hparts in Hrun. unfold mbind, M_bind in Hrun.
  destruct (perform size_bits T in_chans out_chans F1 s) as [[[] s1]|]; [|done].
  exists s1. split; [done|]. intros c i Hi. unfold channel_sample.
  destruct (out_chans !! c) as [q|] eqn:Hq; [|done]. simpl.
  destruct (bounded_perform size_bits T _ _ F2 s1 () s' Hrun) as [_ (_ & Hfr & _)].
  apply Hfr. intros (p' & j & Hp' & Hj & Heq).
  apply list_elem_of_fmap in Hp' as (q' & -> & Hq').
  apply list_elem_of_lookup in Hq' as [c' Hc'].
  apply (disjoint_channels_ne out_chans (F1 + F2) c c' q q' i (F1 + j));
    try done; try lia.
  intros [= _ ?]. lia.
Qed.

End tables.

(** ** The outputs as a function of the object and the inputs *)
Section function_of_inputs.
Context {sample St : Type} (size_bits : Z) (size_bits_32 : 32 ≤ size_bits).
Implicit Types (s t : machine sample St) (T : min_class sample St).
Implicit Types (calls : list (list sample * calc_result sample)).

Lemma calls_chain_inj T (o : St) calls calls' :
  calls_chain T o calls → calls_chain T o calls' →
  calls.*1 = calls'.*1 → calls = calls'.
Proof.
  revert o calls'. induction calls as [|[a r] calls IH];
    intros o [|[a' r'] calls'] Hc Hc' Heq; simplify_eq/=; [done|].
  destruct Hc as [<- Hc], Hc' as [<- Hc']. f_equal. by eapply IH.
Qed.

(** Two runs from the same object that gather the same samples in every
    frame make the same calls. *)
Lemma frames_same_calls T (ins outs ins' outs' : list Z) (M : nat) (F : Z)
    calls calls' s s' t t' :
  frames T ins outs M 0 calls s s' → frames T ins' outs' M 0 calls' t t' →
  length calls = Z.to_nat F → length calls' = Z.to_nat F →
  no_clobber ins outs F → no_clobber ins' outs' F →
  obj s = obj t →
  (∀ i, 0 ≤ i < F → gather (mem s) ins i = gather (mem t) ins' i) →
  calls = calls'.
Proof.
  intros Hfr Hfr' Hlen Hlen' Hnc Hnc' Hobj Hsame.
  destruct (frames_obj _ _ _ _ _ _ _ _ Hfr) as [Hch _].
  destruct (frames_obj _ _ _ _ _ _ _ _ Hfr') as [Hch' _].
  rewrite <- Hobj in Hch'. apply (calls_chain_inj T (obj s)); [done|done|].
  apply list_eq. intros n. rewrite !list_lookup_fmap.
  destruct (calls !! n) as [[a r]|] eqn:Hn, (calls' !! n) as [[a' r']|] eqn:Hn';
    simpl; try done.
  - pose proof (lookup_lt_Some _ _ _ Hn) as Hlt.
    destruct (frames_args T _ _ _ F _ _ _ _ _ _ _ Hfr Hnc ltac:(lia) ltac:(lia) Hn)
      as [Hg _].
    destruct (frames_args T _ _ _ F _ _ _ _ _ _ _ Hfr' Hnc' ltac:(lia) ltac:(lia) Hn')
      as [Hg' _].
    rewrite Hsame in Hg by lia. congruence.
  - apply lookup_lt_Some in Hn. apply lookup_ge_None in Hn'. lia.
  - apply lookup_lt_Some in Hn'. apply lookup_ge_None in Hn. lia.
Qed.

(** X11.  What a call leaves in the output buffers and in the object
    depends on the object it started with and on the samples supplied
    in the input buffers alone: two calls of a class, stateful or not,
    on any two memories and with any two layouts of the buffers (in
    place or not) that start with the same object and are supplied the
    same input samples frame by frame both return, and leave the same
    object and the same samples in their output buffers. *)
Theorem perform_outputs_from_inputs T (K M : Z)
    (in_chans out_chans in_chans' out_chans' : list Z) (F : Z) s t :
  base T = SampleOperator K M → 0 ≤ K ≤ INT_MAX → 0 ≤ M ≤ INT_MAX →
  conforming T (Z.to_nat K) (Z.to_nat M) →
  length in_chans = Z.to_nat K → length out_chans = Z.to_nat M →
  length in_chans' = Z.to_nat K → length out_chans' = Z.to_nat M →
  F ≤ INT_MAX →
  allocated (mem s) in_chans F → allocated (mem s) out_chans F →
  no_clobber in_chans out_chans F → disjoint_channels out_chans F →
  allocated (mem t) in_chans' F → allocated (mem t) out_chans' F →
  no_clobber in_chans' out_chans' F → disjoint_channels out_chans' F →
  obj s = obj t →
  (∀ i, 0 ≤ i < F → gather (mem s) in_chans i = gather (mem t) in_chans' i) →
  ∃ s' t',
    perform size_bits T in_chans out_chans F s = Some ((), s')
    ∧ perform size_bits T in_chans' out_chans' F t = Some ((), t')
    ∧ obj s' = obj t'
    ∧ ∀ i (c : nat), 0 ≤ i < F → (c < Z.to_nat M)%nat →
        is_Some (channel_sample (mem s') out_chans c i)
        ∧ channel_sample (mem s') out_chans c i
          = channel_sample (mem t') out_chans' c i.
Proof.
  intros Hbase HK HM Hconf Hli Hlo Hli' Hlo' HF
    Hai Hao Hnc Hd Hai' Hao' Hnc' Hd' Hobj Hsame.
  destruct (perform_frames size_bits size_bits_32 T K M in_chans out_chans F s)
    as (calls & s' & Hrun & Hlen & Hfr); try done.
  destruct (perform_frames size_bits size_bits_32 T K M in_chans' out_chans' F t)
    as (calls' & t' & Hrun' & Hlen' & Hfr'); try done.
  assert (calls = calls') as <-
    by (by eapply (frames_same_calls T in_chans out_chans in_chans' out_chans')).
  exists s', t'. split; [done|]. split; [done|]. split.
  { destruct (frames_obj _ _ _ _ _ _ _ _ Hfr) as [_ ->].
    destruct (frames_obj _ _ _ _ _ _ _ _ Hfr') as [_ ->]. by rewrite Hobj. }
  intros i c Hi Hc.
  destruct (lookup_lt_is_Some_2 out_chans c) as [q Hq]; [lia|].
  destruct (lookup_lt_is_Some_2 out_chans' c) as [q' Hq']; [lia|].
  destruct (lookup_lt_is_Some_2 calls (Z.to_nat i)) as [[args r] Hn]; [lia|].
  destruct (frames_args T _ _ _ F _ _ _ _ _ _ _ Hfr Hnc ltac:(lia) ltac:(lia) Hn)
    as [Hg [o Ho]].
  pose proof (gather_length _ _ _ _ Hg) as Hla.
  destruct (conforming_shape T _ _ o args Hconf) as [Hrc Hrv]; [congruence|].
  rewrite Ho in Hrc, Hrv.
  destruct (lookup_lt_is_Some_2 (result_vals r) c) as [v Hv]; [lia|].
  assert (i = 0 + Z.of_nat (Z.to_nat i)) as Hi' by lia.
  unfold channel_sample. rewrite Hq, Hq'. simpl. rewrite Hi'.
  rewrite (frames_outputs T _ _ _ F _ _ _ _ _ c _ _ q v Hfr Hd ltac:(lia) ltac:(lia) Hn)
    by (try done; lia).
  rewrite (frames_outputs T _ _ _ F _ _ _ _ _ c _ _ q' v Hfr' Hd' ltac:(lia) ltac:(lia) Hn)
    by (try done; lia).
  eauto.
Qed.

End function_of_inputs.

(** ** Classes without state *)

Lemma block_cell_dec (chans : list Z) (F a : Z) :
  Decision (block_cell chans F a).
Proof.
  destruct (decide (Exists (λ q, 0 ≤ a - q < F) chans)) as [H|H].
  - left. apply Exists_exists in H as (q & Hq & Hi).
    exists q, (a - q). split; [done|]. split; [done|lia].
  - right. intros (q & i & Hq & Hi & ->). apply H, Exists_exists.
    exists q. split; [done|lia].
Qed.

Section pure.
Context {sample St : Type} (size_bits : Z) (size_bits_32 : 32 ≤ size_bits).
Implicit Types (s : machine sample St) (T : min_class sample St).

Lemma calls_obj_pure T (K : nat) g (o : St) calls :
  pure_class T K g → Forall (λ ar, length ar.1 = K) calls →
  calls_obj T o calls = o.
Proof.
  intros Hp Hlen. revert o.
  induction Hlen as [|[args r] calls Ha _ IH]; intros o; [done|].
  simpl in *. rewrite (Hp o args Ha). simpl. apply IH.
Qed.

(** A call of a class that computes [g], on a block on which no store
    clobbers a later load or an earlier store. *)
Lemma perform_pure_run T g (K M : Z) (in_chans out_chans : list Z) (F : Z) s :
  base T = SampleOperator K M → 0 ≤ K ≤ INT_MAX → 0 ≤ M ≤ INT_MAX →
  conforming T (Z.to_nat K) (Z.to_nat M) → pure_class T (Z.to_nat K) g →
  length in_chans = Z.to_nat K → length out_chans = Z.to_nat M →
  F ≤ INT_MAX →
  allocated (mem s) in_chans F → allocated (mem s) out_chans F →
  no_clobber in_chans out_chans F → disjoint_channels out_chans F →
  ∃ s', perform size_bits T in_chans out_chans F s = Some ((), s')
    ∧ obj s' = obj s
    ∧ touches (block_cell in_chans F) (block_cell out_chans F) s s'
    ∧ ∀ i (c : nat) q, 0 ≤ i < F → out_chans !! c = Some q →
        ∃ args v, gather (mem s) in_chans i = Some args
                  ∧ result_vals (g args) !! c = Some v
                  ∧ mem s' !! (q + i) = Some v.
Proof.
  intros Hbase HK HM Hconf Hpure Hli Hlo HF Hai Hao Hnc Hd.
  destruct (perform_frames size_bits size_bits_32 T K M in_chans out_chans F s)
    as (calls & s' & Hrun & Hlen & Hfr); try done.
  exists s'. split; [done|]. split; [|split].
  - destruct (frames_obj _ _ _ _ _ _ _ _ Hfr) as [_ ->].
    apply (calls_obj_pure T (Z.to_nat K) g); [done|].
    eapply Forall_impl; [exact (frames_calls _ _ _ _ _ _ _ _ Hfr)|].
    intros ar [Har _]. congruence.
  - by destruct (bounded_perform size_bits T in_chans out_chans F s () s' Hrun).
  - intros i c q Hi Hq.
    destruct (frames_io T in_chans out_chans (Z.to_nat M) F calls s s' i)
      as (args & o & Hg & Hout); try done.
    pose proof (gather_length _ _ _ _ Hg) as Hla.
    assert (length args = Z.to_nat K) as Hla' by congruence.
    destruct (conforming_shape T _ _ o args Hconf Hla') as [Hrc Hrv].
    rewrite (Hpure o args Hla') in *. simpl in *.
    pose proof (lookup_lt_Some _ _ _ Hq) as Hc.
    destruct (lookup_lt_is_Some_2 (result_vals (g args)) c) as [v Hv]; [lia|].
    exists args, v. split; [done|]. split; [done|].
    apply (Hout c q v); [lia|done|done].
Qed.

(** X10.  Whatever the descriptor [(K, M)] is (no inputs, one input and
    several outputs, no outputs, ...), a call of a class that computes
    [g] returns and has stored, for every frame [i] below [F] and every
    output channel [c] below [M], slot [c] of [g] of the [K] samples
    supplied for frame [i], taken in channel order. *)
Theorem perform_computes T g (K M : Z) (in_chans out_chans : list Z) (F : Z) s :
  base T = SampleOperator K M → 0 ≤ K ≤ INT_MAX → 0 ≤ M ≤ INT_MAX →
  conforming T (Z.to_nat K) (Z.to_nat M) → pure_class T (Z.to_nat K) g →
  length in_chans = Z.to_nat K → length out_chans = Z.to_nat M →
  F ≤ INT_MAX →
  allocated (mem s) in_chans F → allocated (mem s) out_chans F →
  no_clobber in_chans out_chans F → disjoint_channels out_chans F →
  ∃ s', perform size_bits T in_chans out_chans F s = Some ((), s')
    ∧ ∀ i (c : nat), 0 ≤ i < F → (c < Z.to_nat M)%nat →
        ∃ args, length args = Z.to_nat K
          ∧ (∀ k, (k < Z.to_nat K)%nat →
               is_Some (args !! k)
               ∧ args !! k = channel_sample (mem s) in_chans k i)
          ∧ is_Some (result_vals (g args) !! c)
          ∧ channel_sample (mem s') out_chans c i = result_vals (g args) !! c.
Proof.
  intros Hbase HK HM Hconf Hpure Hli Hlo HF Hai Hao Hnc Hd.
  destruct (perform_pure_run T g K M in_chans out_chans F s)
    as (s' & Hrun & _ & _ & Hout); try done.
  exists s'. split; [done|]. intros i c Hi Hc.
  destruct (lookup_lt_is_Some_2 out_chans c) as [q Hq]; [lia|].
  destruct (Hout i c q Hi Hq) as (args & v & Hg & Hv & Hm).
  destruct (gather_channel_sample _ _ _ _ Hg) as [Hla Hargs].
  exists args. split; [congruence|]. split.
  { intros k Hk. split; [apply lookup_lt_is_Some_2; lia|apply Hargs; lia]. }
  split; [eauto|]. unfold channel_sample. rewrite Hq. simpl. by rewrite Hv.
Qed.

(** X12.  A call of a class that computes [g], with output buffers that
    share no cell with the input buffers, can be repeated: the second
    call on the same tables returns too and leaves the memory and the
    object exactly as the first call left them. *)
Theorem perform_twice T g (K M : Z) (in_chans out_chans : list Z) (F : Z) s :
  base T = SampleOperator K M → 0 ≤ K ≤ INT_MAX → 0 ≤ M ≤ INT_MAX →
  conforming T (Z.to_nat K) (Z.to_nat M) → pure_class T (Z.to_nat K) g →
  length in_chans = Z.to_nat K → length out_chans = Z.to_nat M →
  F ≤ INT_MAX →
  allocated (mem s) in_chans F → allocated (mem s) out_chans F →
  separate in_chans out_chans F → disjoint_channels out_chans F →
  ∃ s1 s2,
    perform size_bits T in_chans out_chans F s = Some ((), s1)
    ∧ perform size_bits T in_chans out_chans F s1 = Some ((), s2)
    ∧ mem s2 = mem s1 ∧ obj s2 = obj s1.
Proof.
  intros Hbase HK HM Hconf Hpure Hli Hlo HF Hai Hao Hsep Hd.
  pose proof (separate_no_clobber _ _ _ Hsep) as Hnc.
  destruct (perform_pure_run T g K M in_chans out_chans F s)
    as (s1 & Hrun1 & Hobj1 & (Hdom1 & Hfr1 & _) & Hout1); try done.
  assert (∀ chans, allocated (mem s) chans F → allocated (mem s1) chans F) as Hal.
  { intros chans Hc. unfold allocated in *.
    eapply Forall_impl; [exact Hc|]. intros p Hp. simpl in *.
    eapply Forall_impl; [exact Hp|]. intros i. simpl. by rewrite Hdom1. }
  destruct (perform_pure_run T g K M in_chans out_chans F s1)
    as (s2 & Hrun2 & Hobj2 & (Hdom2 & Hfr2 & _) & Hout2); try done; auto.
  exists s1, s2. split; [done|]. split; [done|]. split; [|done].
  apply map_eq. intros a.
  destruct (block_cell_dec out_chans F a) as [(q & i & Hq & Hi & ->)|Hno];
    [|by apply Hfr2].
  apply list_elem_of_lookup in Hq as [c Hc].
  destruct (Hout1 i c q Hi Hc) as (args1 & v1 & Hg1 & Hv1 & Hm1).
  destruct (Hout2 i c q Hi Hc) as (args2 & v2 & Hg2 & Hv2 & Hm2).
  assert (gather (mem s1) in_chans i = gather (mem s) in_chans i) as Hsame.
  { apply gather_ext. intros p Hp. apply Hfr1.
    intros (q' & j & Hq' & Hj & Heq).
    by apply (separate_ne in_chans out_chans F p q' j i Hsep). }
  rewrite Hsame, Hg1 in Hg2. simplify_eq. by rewrite Hm1, Hm2.
Qed.

End pure.

(** * The claims on the example classes *)

(** The two scenarios of the specification, with integer samples. *)
Example adder_scenario :
  (λ i, sample_after (perform 64 adder [100; 200] [300] 3 (block ())) [300] 0 i)
    <$> [0; 1; 2]
  = [Some 11; Some 22; Some 33].
Proof. vm_compute. reflexivity. Qed.

Example doubler_scenario :
  (λ i, sample_after (perform 64 doubler [200] [300] 2 (block ())) [300] 0 i)
    <$> [0; 1; 2]
  = [Some 20; Some 40; Some 0].
Proof. vm_compute. reflexivity. Qed.

(** The arguments are passed in channel order, and every result slot
    goes to its own channel. *)
Example weighted_difference_order :
  (λ i, sample_after (perform 64 weighted_difference [100; 200] [300] 3 (block ()))
          [300] 0 i) <$> [0; 1; 2]
  = [Some (-19); Some (-38); Some (-57)].
Proof. vm_compute. reflexivity. Qed.

Example sum_and_difference_slots :
  (λ c, (λ i, sample_after
                (perform 64 sum_and_difference [100; 200] [300; 400] 3 (block ()))
                [300; 400] c i) <$> [0; 1; 2]) <$> [0%nat; 1%nat]
  = [[Some 11; Some 22; Some 33]; [Some (-9); Some (-18); Some (-27)]].
Proof. vm_compute. reflexivity. Qed.

(** A running total: the object is the only thing the frames share. *)
Example accumulator_total :
  (λ i, sample_after (perform 64 accumulator [100] [300] 3 (block 0)) [300] 0 i)
    <$> [0; 1; 2]
  = [Some 1; Some 3; Some 6].
Proof. vm_compute. reflexivity. Qed.

(** An in-place call of the doubler. *)
Example doubler_in_place :
  (λ i, sample_after (perform 64 doubler [100] [100] 3 (block ())) [100] 0 i)
    <$> [0; 1; 2]
  = [Some 2; Some 4; Some 6].
Proof. vm_compute. reflexivity. Qed.

(** An output buffer that starts one sample into the input buffer
    [3; 1; 2]: the second frame doubles what the first one stored, not
    the [1] the caller supplied. *)
Example doubler_overlapping :
  (λ i, sample_after (perform 64 doubler [100] [101] 2
                        (Machine (buffer 100 [3; 1; 2]) () [])) [101] 0 i)
    <$> [0; 1]
  = [Some 6; Some 12].
Proof. vm_compute. reflexivity. Qed.

Lemma perform_1x1_computes_witness :
  ∃ s', perform 64 doubler [100] [300] 3 (block ()) = Some ((), s')
    ∧ ∀ i, 0 ≤ i < 3 →
        ∃ x, channel_sample (mem (block ())) [100] 0 i = Some x
           ∧ channel_sample (mem s') [300] 0 i = Some (2 * x).
Proof.
  apply (perform_1x1_computes 64 ltac:(lia) doubler (λ x, 2 * x) [100] [300] 100 300 3).
  - reflexivity.
  - reflexivity.
  - reflexivity.
  - reflexivity.
  - solve_int.
  - solve_cells.
  - solve_cells.
  - solve_cells.
Defined.

Lemma perform_Kx1_computes_witness :
  ∃ s', perform 64 weighted_difference [100; 200] [300] 3 (block ()) = Some ((), s')
    ∧ ∀ i, 0 ≤ i < 3 →
        ∃ args, length args = 2%nat
          ∧ (∀ c, (c < 2)%nat →
               is_Some (args !! c)
               ∧ args !! c = channel_sample (mem (block ())) [100; 200] c i)
          ∧ channel_sample (mem s') [300] 0 i
            = Some (default 0 (args !! 0%nat) - 2 * default 0 (args !! 1%nat)).
Proof.
  apply (perform_Kx1_computes 64 ltac:(lia) weighted_difference 2
           (λ args, default 0 (args !! 0%nat) - 2 * default 0 (args !! 1%nat))
           [100; 200] [300] 3).
  - reflexivity.
  - solve_int.
  - reflexivity.
  - reflexivity.
  - reflexivity.
  - solve_int.
  - solve_cells.
  - solve_cells.
  - solve_cells.
Defined.

Lemma perform_KxM_computes_witness :
  ∃ s', perform 64 sum_and_difference [100; 200] [300; 400] 3 (block ()) = Some ((), s')
    ∧ ∀ i (c : nat), 0 ≤ i < 3 → (c < 2)%nat →
        ∃ args, length args = 2%nat
          ∧ (∀ k, (k < 2)%nat →
               is_Some (args !! k)
               ∧ args !! k = channel_sample (mem (block ())) [100; 200] k i)
          ∧ is_Some ([default 0 (args !! 0%nat) + default 0 (args !! 1%nat);
                      default 0 (args !! 0%nat) - default 0 (args !! 1%nat)] !! c)
          ∧ channel_sample (mem s') [300; 400] c i
            = [default 0 (args !! 0%nat) + default 0 (args !! 1%nat);
               default 0 (args !! 0%nat) - default 0 (args !! 1%nat)] !! c.
Proof.
  apply (perform_KxM_computes 64 ltac:(lia) sum_and_difference 2 2
           (λ args, [default 0 (args !! 0%nat) + default 0 (args !! 1%nat);
                     default 0 (args !! 0%nat) - default 0 (args !! 1%nat)])
           [100; 200] [300; 400] 3).
  - reflexivity.
  - solve_int.
  - solve_int.
  - reflexivity.
  - reflexivity.
  - reflexivity.
  - reflexivity.
  - solve_int.
  - solve_cells.
  - solve_cells.
  - solve_cells.
  - simpl. repeat split; solve_cells.
Defined.

Lemma perform_1x1_is_generic_witness :
  perform_1x1 doubler [100] [300] 3 (block ())
  = perform_generic 64 doubler [100] [300] 3 (block ()).
Proof.
  apply (perform_1x1_is_generic 64 ltac:(lia) doubler [100] [300] 3).
  - reflexivity.
  - intros o x. eexists. reflexivity.
  - eexists. reflexivity.
  - eexists. reflexivity.
Defined.

Lemma perform_zero_frames_witness :
  perform 64 doubler [100] [300] 0 (block ()) = Some ((), block ()).
Proof.
  apply (perform_zero_frames 64 doubler [100] [300]).
  intros _. split; eexists; reflexivity.
Defined.

Lemma perform_negative_frames_witness :
  perform 64 doubler [100] [300] (-3) (block ())
  = perform 64 doubler [100] [300] 0 (block ())
  ∧ ((is_1x1 (base doubler) = true →
        is_Some ([100] !! 0%nat) ∧ is_Some ([300] !! 0%nat)) →
     perform 64 doubler [100] [300] (-3) (block ()) = Some ((), block ())).
Proof. apply (perform_negative_frames 64 doubler [100] [300] (-3)). lia. Defined.

Lemma perform_frame_order_witness :
  ∃ calls s',
    perform 64 accumulator [100] [300] 3 (block 0) = Some ((), s')
    ∧ trace s' = trace (block 0) ++ block_trace [100] [300] calls
    ∧ calls_in (block_trace [100] [300] calls) = calls
    ∧ length calls = 3%nat
    ∧ Forall (λ ar, length ar.1 = 1%nat ∧ length (result_vals ar.2) = 1%nat) calls
    ∧ calls_chain accumulator (obj (block 0)) calls
    ∧ obj s' = calls_obj accumulator (obj (block 0)) calls
    ∧ frames accumulator [100] [300] 1 0 calls (block 0) s'.
Proof.
  apply (perform_frame_order 64 ltac:(lia) accumulator 1 1 [100] [300] 3).
  - reflexivity.
  - solve_int.
  - solve_int.
  - intros o args _. reflexivity.
  - reflexivity.
  - reflexivity.
  - solve_int.
  - solve_cells.
  - solve_cells.
Defined.

Lemma perform_1x1_footprint_witness :
  ∃ s' tr,
    perform 64 doubler [100] [100] 3 (block ()) = Some ((), s')
    ∧ trace s' = trace (block ()) ++ tr
    ∧ Forall (λ e, match e with
                   | EvLoad a _ => ∃ i, 0 ≤ i < 3 ∧ a = 100 + i
                   | EvStore a _ => ∃ i, 0 ≤ i < 3 ∧ a = 100 + i
                   | EvCall _ _ => True
                   end) tr
    ∧ (∀ a, (∀ i, 0 ≤ i < 3 → a ≠ 100 + i) → mem s' !! a = mem (block ()) !! a)
    ∧ (separate [100] [100] 3 →
       ∀ i, 0 ≤ i < 3 →
         channel_sample (mem s') [100] 0 i
         = channel_sample (mem (block ())) [100] 0 i).
Proof.
  apply (perform_1x1_footprint 64 ltac:(lia) doubler [100] [100] 100 100 3).
  - reflexivity.
  - intros o x. eexists. reflexivity.
  - reflexivity.
  - reflexivity.
  - solve_int.
  - solve_cells.
  - solve_cells.
Defined.

Lemma perform_generic_keeps_inputs_witness :
  ∃ calls s',
    perform_generic 64 sum_and_difference [100; 200] [300; 400] 3 (block ())
    = Some ((), s')
    ∧ trace s' = trace (block ()) ++ block_trace [100; 200] [300; 400] calls
    ∧ length calls = 3%nat
    ∧ (∀ (n : nat) args r,
         calls !! n = Some (args, r) →
         gather (mem (block ())) [100; 200] (Z.of_nat n) = Some args)
    ∧ (∀ (c : nat) i, 0 ≤ i < 3 →
         channel_sample (mem s') [100; 200] c i
         = channel_sample (mem (block ())) [100; 200] c i).
Proof.
  apply (perform_generic_keeps_inputs 64 ltac:(lia) sum_and_difference 2 2
           [100; 200] [300; 400] 3).
  - reflexivity.
  - solve_int.
  - solve_int.
  - intros o args _. simpl. split; [reflexivity|lia].
  - reflexivity.
  - reflexivity.
  - solve_int.
  - solve_cells.
  - solve_cells.
  - solve_cells.
Defined.

Lemma counts_are_declared_witness :
  inputcount 64 (SampleOperator 3 2) = 3
  ∧ outputcount 64 (SampleOperator 3 2) = 2
  ∧ 0 ≤ inputcount 64 (SampleOperator 3 2)
  ∧ 0 ≤ outputcount 64 (SampleOperator 3 2).
Proof.
  apply (counts_are_declared 64 (SampleOperator 3 2)).
  - lia.
  - solve_int.
  - solve_int.
Defined.

(** C7, as stated, fails on an in-place call: the buffer passed as
    [in_chans[0]] held [1] in frame [0] and holds [2] after the call. *)
Lemma perform_1x1_in_place_writes_input :
  ∃ s', perform 64 doubler [100] [100] 3 (block ()) = Some ((), s')
    ∧ channel_sample (mem (block ())) [100] 0 0 = Some 1
    ∧ channel_sample (mem s') [100] 0 0 = Some 2.
Proof. eexists. split; [vm_compute; reflexivity|]. split; vm_compute; reflexivity. Qed.

(** * The further properties on the example classes *)

(** A bundle of the adder whose second slot was never set. *)
Lemma call_slots_witness :
  call adder 2 (CallableSamples [Some 5; None]) (block ())
  = (args ← lift (mapM id [Some 5; None]); call_calculate adder args) (block ()).
Proof.
  apply (call_slots adder 2 (CallableSamples [Some 5; None]) (block ())).
  reflexivity.
Defined.

(** One value for the two output channels of [sum_and_difference]. *)
Lemma perform_copy_output_unchecked_witness :
  perform_copy_output 64 sum_and_difference 0 [300; 400] (RSamples [7]) (block ())
  = None.
Proof.
  apply (perform_copy_output_unchecked 64 sum_and_difference 0 [300; 400] [7]).
  left. vm_compute. reflexivity.
Defined.

(** [running_mix] declares two outputs and returns a bare sample: the
    running totals go to the first output buffer, the second one is
    left as it was. *)
Example running_mix_first_channel :
  ∃ s', perform 64 running_mix [100; 200] [300; 400] 3 (block 0) = Some ((), s')
    ∧ (λ i, channel_sample (mem s') [300; 400] 0 i) <$> [0; 1; 2]
      = [Some 11; Some 33; Some 66]
    ∧ (λ i, channel_sample (mem s') [300; 400] 1 i) <$> [0; 1; 2]
      = [Some 0; Some 0; Some 0].
Proof. eexists. split; [reflexivity|]. split; vm_compute; reflexivity. Qed.

(** The same class with a second output pointer that is not allocated. *)
Lemma perform_bare_sample_witness :
  ∃ calls s',
    perform 64 running_mix [100; 200] [300; 500] 3 (block 0) = Some ((), s')
    ∧ touches (block_cell [100; 200] 3) (block_cell [300] 3) (block 0) s'
    ∧ length calls = Z.to_nat 3
    ∧ calls_chain running_mix (obj (block 0)) calls
    ∧ obj s' = calls_obj running_mix (obj (block 0)) calls
    ∧ ∀ (n : nat) args r, calls !! n = Some (args, r) →
        gather (mem (block 0)) [100; 200] (Z.of_nat n) = Some args
        ∧ ∃ val, r = RSample val ∧ mem s' !! (300 + Z.of_nat n) = Some val.
Proof.
  apply (perform_bare_sample 64 running_mix 2 2 [100; 200] [300; 500] 300 3).
  - lia.
  - reflexivity.
  - solve_int.
  - solve_int.
  - reflexivity.
  - intros o args _. eexists. reflexivity.
  - reflexivity.
  - reflexivity.
  - solve_int.
  - solve_cells.
  - solve_cells.
  - solve_cells.
Defined.

(** One input pointer for the two inputs of [weighted_difference]. *)
Lemma perform_short_in_table_witness :
  perform 64 weighted_difference [100] [300] 3 (block ()) = None.
Proof.
  apply (perform_short_in_table 64 weighted_difference [100] [300] 3).
  - lia.
  - vm_compute. reflexivity.
  - lia.
Defined.

Lemma perform_overflow_witness :
  perform 64 doubler [100] [300] 2147483648 (block ()) = None.
Proof.
  apply (perform_overflow 64 doubler [100] [300] 2147483648).
  vm_compute. reflexivity.
Defined.

Lemma perform_defined_iff_witness :
  is_Some (perform 64 sum_and_difference [100; 200] [300; 400] 3 (block ()))
  ↔ allocated (mem (block ())) [100; 200] 3
    ∧ allocated (mem (block ())) [300; 400] 3.
Proof.
  apply (perform_defined_iff 64 sum_and_difference 2 2 [100; 200] [300; 400] 3).
  - lia.
  - reflexivity.
  - solve_int.
  - solve_int.
  - intros o args _. simpl. split; [reflexivity|lia].
  - reflexivity.
  - reflexivity.
  - solve_int.
Defined.

Lemma perform_footprint_witness :
  ∃ s', perform 64 accumulator [100] [300] 2 (block 0) = Some ((), s')
    ∧ touches (block_cell [100] 2) (block_cell [300] 2) (block 0) s'.
Proof.
  eexists. split; [reflexivity|].
  apply (perform_footprint 64 accumulator [100] [300] 2). reflexivity.
Defined.

(** The running total is carried from the first part to the second. *)
Lemma perform_split_witness :
  perform 64 accumulator [100] [300] (1 + 2) (block 0)
  = (perform 64 accumulator [100] [300] 1
     ≫= λ _, perform 64 accumulator (advance 1 [100]) (advance 1 [300]) 2) (block 0).
Proof.
  apply (perform_split 64 accumulator [100] [300] 1 2).
  - lia.
  - lia.
  - solve_int.
Defined.

Lemma perform_computes_witness :
  ∃ s', perform 64 splitter [100] [300; 400] 3 (block ()) = Some ((), s')
    ∧ ∀ i (c : nat), 0 ≤ i < 3 → (c < 2)%nat →
        ∃ args, length args = 1%nat
          ∧ (∀ k, (k < 1)%nat →
               is_Some (args !! k)
               ∧ args !! k = channel_sample (mem (block ())) [100] k i)
          ∧ is_Some ([default 0 (args !! 0%nat); - default 0 (args !! 0%nat)] !! c)
          ∧ channel_sample (mem s') [300; 400] c i
            = [default 0 (args !! 0%nat); - default 0 (args !! 0%nat)] !! c.
Proof.
  apply (perform_computes 64 ltac:(lia) splitter
           (λ args, RSamples [default 0 (args !! 0%nat); - default 0 (args !! 0%nat)])
           1 2 [100] [300; 400] 3).
  - reflexivity.
  - solve_int.
  - solve_int.
  - intros o args _. simpl. split; [reflexivity|lia].
  - intros o args _. reflexivity.
  - reflexivity.
  - reflexivity.
  - solve_int.
  - solve_cells.
  - solve_cells.
  - solve_cells.
  - simpl. repeat split; solve_cells.
Defined.

(** The accumulator out of place and in place, from the same total. *)
Lemma perform_outputs_from_inputs_witness :
  ∃ s' t',
    perform 64 accumulator [100] [300] 3 (block 5) = Some ((), s')
    ∧ perform 64 accumulator [100] [100] 3 (block 5) = Some ((), t')
    ∧ obj s' = obj t'
    ∧ ∀ i (c : nat), 0 ≤ i < 3 → (c < 1)%nat →
        is_Some (channel_sample (mem s') [300] c i)
        ∧ channel_sample (mem s') [300] c i = channel_sample (mem t') [100] c i.
Proof.
  apply (perform_outputs_from_inputs 64 ltac:(lia) accumulator 1 1
           [100] [300] [100] [100] 3).
  - reflexivity.
  - solve_int.
  - solve_int.
  - intros o args _. reflexivity.
  - reflexivity.
  - reflexivity.
  - reflexivity.
  - reflexivity.
  - solve_int.
  - solve_cells.
  - solve_cells.
  - solve_cells.
  - simpl. repeat split; solve_cells.
  - solve_cells.
  - solve_cells.
  - solve_cells.
  - simpl. repeat split; solve_cells.
  - reflexivity.
  - intros i _. reflexivity.
Defined.

Lemma perform_twice_witness :
  ∃ s1 s2,
    perform 64 sum_and_difference [100; 200] [300; 400] 3 (block ()) = Some ((), s1)
    ∧ perform 64 sum_and_difference [100; 200] [300; 400] 3 s1 = Some ((), s2)
    ∧ mem s2 = mem s1 ∧ obj s2 = obj s1.
Proof.
  apply (perform_twice 64 ltac:(lia) sum_and_difference
           (λ args, RSamples [default 0 (args !! 0%nat) + default 0 (args !! 1%nat);
                              default 0 (args !! 0%nat) - default 0 (args !! 1%nat)])
           2 2 [100; 200] [300; 400] 3).
  - reflexivity.
  - solve_int.
  - solve_int.
  - intros o args _. simpl. split; [reflexivity|lia].
  - intros o args _. reflexivity.
  - reflexivity.
  - reflexivity.
  - solve_int.
  - solve_cells.
  - solve_cells.
  - solve_cells.
  - simpl. repeat split; solve_cells.
Defined.

(** Tables with a pointer too many on either side. *)
Lemma perform_ignores_extra_pointers_witness :
  perform 64 adder [100; 200; 999] [300; 888] 3 (block ())
  = perform 64 adder (take (Z.to_nat 2) [100; 200; 999])
      (take (Z.to_nat 1) [300; 888]) 3 (block ()).
Proof.
  apply (perform_ignores_extra_pointers 64 adder 2 1 [100; 200; 999] [300; 888] 3).
  - lia.
  - reflexivity.
  - solve_int.
  - solve_int.
Defined.

Lemma perform_causal_witness :
  ∃ s', perform 64 accumulator [100] [300] (1 + 2) (block 0) = Some ((), s')
    ∧ ∃ s1, perform 64 accumulator [100] [300] 1 (block 0) = Some ((), s1)
        ∧ ∀ (c : nat) i, 0 ≤ i < 1 →
            channel_sample (mem s') [300] c i = channel_sample (mem s1) [300] c i.
Proof.
  eexists. split; [reflexivity|].
  apply (perform_causal 64 accumulator [100] [300] 1 2 (block 0)).
  - lia.
  - lia.
  - solve_int.
  - simpl. repeat split; solve_cells.
  - reflexivity.
Defined.
